(** * 24Solver: a shallow embedding of main.go and its verified properties

    The solver of main.go enumerates the orderings of four operands, the
    operator triples over {+, -, *, /} and five parenthesisations, keeps the
    expression trees whose value is 24 (up to 1e-9), and reports one formula
    per canonical key.

    Conventions of the embedding:
    - [float64] is Rocq's primitive binary64 float (IEEE 754, round to
      nearest even), so the arithmetic below is the arithmetic of the Go
      program, each operation rounded on its own;
    - a Go panic (index out of range, nil dereference) is [None] in the
      option monad; every function that can panic returns an option;
    - the map [seenKeys] is shared by every call of one search: it is threaded
      through [findSolutions] as explicit state;
    - the two formatting routines of the Go standard library that main.go
      calls on floats are parameters of the development, and so are the
      library routines [parseInput] and [main] call on texts where they go
      by Unicode or parse a number;
    - standard input is the list of the lines the scanner delivers, and
      standard output the list of the texts written. *)

From Stdlib Require Import Floats Ascii String.
From stdpp Require Import gmap strings list sorting pretty.

Set Warnings "-inexact-float,-register-all,-clear-no-such-hyp,-level-tolerance".


(** ** Data model (main.go, lines 13-28) *)

(** [type Node struct { op string; value float64; left, right *Node }].
    A nil pointer is [None]. *)
Module Node.
Inductive t : Type :=
  mk { op : string; value : float; left : option t; right : option t }.
End Node.

(** [type Expression struct { formula string; value float64 }] *)
Module Expression.
Record t : Type := mk { formula : string; value : float }.
End Expression.

(** [var operations = []string{"+", "-", "*", "/"}] *)
Definition operations : list string := ["+"; "-"; "*"; "/"].

(** ** Evaluation of one step (main.go, lines 30-49) *)

Definition calculate (a b : float) (op : string) : float * bool :=
  if String.eqb op "+" then (PrimFloat.add a b, true)
  else if String.eqb op "-" then (PrimFloat.sub a b, true)
  else if String.eqb op "*" then (PrimFloat.mul a b, true)
  else if String.eqb op "/" then
    if PrimFloat.ltb (PrimFloat.abs b) 1e-9%float
    then (0%float, false)
    else (PrimFloat.div a b, true)
  else (0%float, false).

Definition isApproximately24 (value : float) : bool :=
  PrimFloat.ltb (PrimFloat.abs (PrimFloat.sub value 24.0%float)) 1e-9%float.

(** ** Enumeration (main.go, lines 51-78) *)

(** [nums[:i]] followed by [nums[i+1:]]: the slice [remaining]. *)
Definition remaining (nums : list float) (i : nat) : list float :=
  take i nums ++ drop (S i) nums.

(** [generatePermutations] recurses on a slice that is one element shorter.
    The recursion is on a counter that bounds the length of the slice;
    [generatePermutations] starts it at the length itself, and
    [generatePermutationsFuel_enough] shows that the bound is never hit. *)
Fixpoint generatePermutationsFuel (fuel : nat) (nums : list float)
  : list (list float) :=
  if Nat.leb (length nums) 1 then [nums]
  else
    match fuel with
    | O => []
    | S fuel' =>
        imap (fun i num => (i, num)) nums ≫=
          (fun '(i, num) =>
             (fun perm => num :: perm) <$>
               generatePermutationsFuel fuel' (remaining nums i))
    end.

Definition generatePermutations (nums : list float) : list (list float) :=
  generatePermutationsFuel (length nums) nums.

Definition generateOperations : list (list string) :=
  operations ≫= (fun op1 =>
    operations ≫= (fun op2 =>
      (fun op3 => [op1; op2; op3]) <$> operations)).

(** ** Library routines main.go relies on *)

(** [strings.Join(elems, sep)] *)
Fixpoint Join (elems : list string) (sep : string) : string :=
  match elems with
  | [] => ""
  | [e] => e
  | e :: rest => e +:+ sep +:+ Join rest sep
  end.

(** [sort.Strings]: ascending in the byte-wise lexicographic order of Go's
    [<] on strings, which is [String.le].  That order is total and
    antisymmetric, so the sorted slice is determined by the multiset of its
    elements, whatever the sorting algorithm ([sortStrings_unique]). *)
Definition sortStrings (operands : list string) : list string :=
  merge_sort String.le operands.

(** An operand of [fmt.Sprintf]. *)
Inductive Arg : Type :=
  | ArgFloat (f : float)
  | ArgString (s : string).

Section Solver.

(** [strconv.FormatFloat(n, 'g', -1, 64)]: the shortest decimal text that
    reads back as [n]. *)
Variable FormatFloat : float -> string.

(** What [fmt] prints for a [float64] under the verb [%.0f]. *)
Variable FormatFixed0 : float -> string.

(** [fmt.Sprintf] on the fragment main.go uses: literal text and the verbs
    [%.0f] (a float operand) and [%s] (a string operand).  Outside that
    fragment (another verb, a missing, surplus or ill-typed operand) fmt
    splices a diagnostic into the text; the model stops with [None] there. *)
Fixpoint Sprintf (format : string) (args : list Arg) : option string :=
  match format with
  | EmptyString =>
      match args with [] => Some "" | _ :: _ => None end
  | String "%"%char
      (String "."%char (String "0"%char (String "f"%char rest))) =>
      match args with
      | ArgFloat f :: args' =>
          s ← Sprintf rest args'; Some (FormatFixed0 f +:+ s)
      | _ => None
      end
  | String "%"%char (String "s"%char rest) =>
      match args with
      | ArgString s0 :: args' => s ← Sprintf rest args'; Some (s0 +:+ s)
      | _ => None
      end
  | String "%"%char _ => None
  | String c rest => s ← Sprintf rest args; Some (String c s)
  end.

(** ** Canonical keys (main.go, lines 80-136) *)

Definition numStr (n : float) : string := FormatFloat n.

(** [getCanonicalKey] and [collectOperands] are mutually recursive in
    main.go, and [getCanonicalKey] calls [collectOperands] on the node it was
    given, which is no smaller.  The recursion is tied in two steps:
    [collectOperandsWith key] is [collectOperands] with the key function left
    open, and [getCanonicalKey] unfolds its call once (that call always takes
    the branch [node.op == op]) so that [collectOperandsWith] starts at the
    two children.  [getCanonicalKey_eq] and [collectOperands_eq] restate the
    two bodies as main.go has them.  [None] is the nil dereference of a node
    with exactly one child. *)
Fixpoint collectOperandsWith (key : Node.t -> option string)
    (node : Node.t) (op : string) (operands : list string)
  : option (list string) :=
  match node with
  | Node.mk nop _ nleft nright =>
      if String.eqb nop op then
        operands ←
          match nleft with
          | Some l => collectOperandsWith key l op operands
          | None => Some operands
          end;
        match nright with
        | Some r => collectOperandsWith key r op operands
        | None => Some operands
        end
      else
        k ← key node; Some (operands ++ [k])
  end.

Fixpoint getCanonicalKey (node : Node.t) : option string :=
  match node with
  | Node.mk op value nleft nright =>
      match nleft, nright with
      | None, None => Some (numStr value)
      | Some l, Some r =>
          keyL ← getCanonicalKey l;
          keyR ← getCanonicalKey r;
          if String.eqb op "*" && String.eqb keyL "1" then Some keyR
          else if String.eqb op "*" && String.eqb keyR "1" then Some keyL
          else if String.eqb op "/" && String.eqb keyR "1" then Some keyL
          else if String.eqb op "+" || String.eqb op "*" then
            operands ← collectOperandsWith getCanonicalKey l op [];
            operands ← collectOperandsWith getCanonicalKey r op operands;
            Some ("(" +:+ Join (sortStrings operands) op +:+ ")")
          else Some ("(" +:+ keyL +:+ op +:+ keyR +:+ ")")
      | _, _ => None
      end
  end.

Definition collectOperands (node : Node.t) (op : string)
    (operands : list string) : option (list string) :=
  collectOperandsWith getCanonicalKey node op operands.

(** ** Building and collecting solutions (main.go, lines 138-217) *)

(** [&Node{value: v}]: a leaf; its [op] is the zero value of [string]. *)
Definition leaf (v : float) : Node.t := Node.mk "" v None None.

(** The table [formulas]; a Go map yields the zero value, the empty string,
    for a key it does not hold. *)
Definition formulas : gmap nat string :=
  {[ 1%nat := "((%.0f %s %.0f) %s %.0f) %s %.0f";
     2%nat := "(%.0f %s (%.0f %s %.0f)) %s %.0f";
     3%nat := "%.0f %s ((%.0f %s %.0f) %s %.0f)";
     4%nat := "%.0f %s (%.0f %s (%.0f %s %.0f))";
     5%nat := "(%.0f %s %.0f) %s (%.0f %s %.0f)" ]}.

Definition formulaAt (k : nat) : string := default "" (formulas !! k).

(** The five blocks that append to [trees]; each yields the tree it appends,
    or nothing.  [a b c d] are the leaves [n[0..3]], [op0 op1 op2] the
    operators [op[0..2]]. *)

(** Pattern 1: ((a op b) op c) op d *)
Definition pattern1 (a b c d : Node.t) (op0 op1 op2 : string) : list Node.t :=
  let '(v1, ok) := calculate (Node.value a) (Node.value b) op0 in
  if ok then
    let '(v2, ok) := calculate v1 (Node.value c) op1 in
    if ok then
      let '(v3, ok) := calculate v2 (Node.value d) op2 in
      if ok && isApproximately24 v3 then
        let node1 := Node.mk op0 v1 (Some a) (Some b) in
        let node2 := Node.mk op1 v2 (Some node1) (Some c) in
        [Node.mk op2 v3 (Some node2) (Some d)]
      else []
    else []
  else [].

(** Pattern 2: (a op (b op c)) op d *)
Definition pattern2 (a b c d : Node.t) (op0 op1 op2 : string) : list Node.t :=
  let '(v1, ok) := calculate (Node.value b) (Node.value c) op1 in
  if ok then
    let '(v2, ok) := calculate (Node.value a) v1 op0 in
    if ok then
      let '(v3, ok) := calculate v2 (Node.value d) op2 in
      if ok && isApproximately24 v3 then
        let node1 := Node.mk op1 v1 (Some b) (Some c) in
        let node2 := Node.mk op0 v2 (Some a) (Some node1) in
        [Node.mk op2 v3 (Some node2) (Some d)]
      else []
    else []
  else [].

(** Pattern 3: a op ((b op c) op d) *)
Definition pattern3 (a b c d : Node.t) (op0 op1 op2 : string) : list Node.t :=
  let '(v1, ok) := calculate (Node.value b) (Node.value c) op1 in
  if ok then
    let '(v2, ok) := calculate v1 (Node.value d) op2 in
    if ok then
      let '(v3, ok) := calculate (Node.value a) v2 op0 in
      if ok && isApproximately24 v3 then
        let node1 := Node.mk op1 v1 (Some b) (Some c) in
        let node2 := Node.mk op2 v2 (Some node1) (Some d) in
        [Node.mk op0 v3 (Some a) (Some node2)]
      else []
    else []
  else [].

(** Pattern 4: a op (b op (c op d)) *)
Definition pattern4 (a b c d : Node.t) (op0 op1 op2 : string) : list Node.t :=
  let '(v1, ok) := calculate (Node.value c) (Node.value d) op2 in
  if ok then
    let '(v2, ok) := calculate (Node.value b) v1 op1 in
    if ok then
      let '(v3, ok) := calculate (Node.value a) v2 op0 in
      if ok && isApproximately24 v3 then
        let node1 := Node.mk op2 v1 (Some c) (Some d) in
        let node2 := Node.mk op1 v2 (Some b) (Some node1) in
        [Node.mk op0 v3 (Some a) (Some node2)]
      else []
    else []
  else [].

(** Pattern 5: (a op b) op (c op d) *)
Definition pattern5 (a b c d : Node.t) (op0 op1 op2 : string) : list Node.t :=
  let '(v1, ok1) := calculate (Node.value a) (Node.value b) op0 in
  if ok1 then
    let '(v2, ok2) := calculate (Node.value c) (Node.value d) op2 in
    if ok2 then
      let '(v3, ok3) := calculate v1 v2 op1 in
      if ok3 && isApproximately24 v3 then
        let node1 := Node.mk op0 v1 (Some a) (Some b) in
        let node2 := Node.mk op2 v2 (Some c) (Some d) in
        [Node.mk op1 v3 (Some node1) (Some node2)]
      else []
    else []
  else [].

(** The slice [trees] once the five blocks have run. *)
Definition buildTrees (a b c d : Node.t) (op0 op1 op2 : string)
  : list Node.t :=
  (pattern1 a b c d op0 op1 op2 ++ pattern2 a b c d op0 op1 op2 ++
   pattern3 a b c d op0 op1 op2 ++ pattern4 a b c d op0 op1 op2 ++
   pattern5 a b c d op0 op1 op2).

(** The loop [for i, tree := range trees] of lines 208-215, from index [i]
    on.  [p0..p3] are [perm[0..3]] and [o0..o2] are [ops[0..2]]. *)
Fixpoint collectLoop (p0 p1 p2 p3 : float) (o0 o1 o2 : string)
    (i : nat) (trees : list Node.t)
    (seenKeys : gmap string bool) (results : list Expression.t)
  : option (list Expression.t * gmap string bool) :=
  match trees with
  | [] => Some (results, seenKeys)
  | tree :: trees' =>
      key ← getCanonicalKey tree;
      if negb (default false (seenKeys !! key)) then
        formula ←
          Sprintf (formulaAt (i + 1))
            [ArgFloat p0; ArgString o0; ArgFloat p1; ArgString o1;
             ArgFloat p2; ArgString o2; ArgFloat p3];
        collectLoop p0 p1 p2 p3 o0 o1 o2 (S i) trees'
          (<[key := true]> seenKeys)
          (results ++ [Expression.mk formula (Node.value tree)])
      else
        collectLoop p0 p1 p2 p3 o0 o1 o2 (S i) trees' seenKeys results
  end.

(** [findSolutions]; its second component is [seenKeys] as the call leaves
    it.  Reading [perm[i]] or [ops[i]] past the end of the slice panics.
    [seenKeys] is a map made by [make], as [main] passes it; for a map value
    that may be nil see [findSolutionsAnyMap] below. *)
Definition findSolutions (perm : list float) (ops : list string)
    (seenKeys : gmap string bool)
  : option (list Expression.t * gmap string bool) :=
  p0 ← perm !! 0%nat; p1 ← perm !! 1%nat;
  p2 ← perm !! 2%nat; p3 ← perm !! 3%nat;
  o0 ← ops !! 0%nat; o1 ← ops !! 1%nat; o2 ← ops !! 2%nat;
  collectLoop p0 p1 p2 p3 o0 o1 o2 0
    (buildTrees (leaf p0) (leaf p1) (leaf p2) (leaf p3) o0 o1 o2)
    seenKeys [].

(** ** The search of [main] (main.go, lines 284-294) *)

(** The inner loop [for _, ops := range operationCombos]. *)
Fixpoint searchOps (perm : list float) (operationCombos : list (list string))
    (uniqueSolutions : list Expression.t) (seenKeys : gmap string bool)
  : option (list Expression.t * gmap string bool) :=
  match operationCombos with
  | [] => Some (uniqueSolutions, seenKeys)
  | ops :: rest =>
      '(solutions, seenKeys') ← findSolutions perm ops seenKeys;
      searchOps perm rest (uniqueSolutions ++ solutions) seenKeys'
  end.

(** The outer loop [for _, perm := range permutations]. *)
Fixpoint searchPerms (permutations : list (list float))
    (operationCombos : list (list string))
    (uniqueSolutions : list Expression.t) (seenKeys : gmap string bool)
  : option (list Expression.t * gmap string bool) :=
  match permutations with
  | [] => Some (uniqueSolutions, seenKeys)
  | perm :: rest =>
      '(uniqueSolutions', seenKeys') ←
        searchOps perm operationCombos uniqueSolutions seenKeys;
      searchPerms rest operationCombos uniqueSolutions' seenKeys'
  end.

(** The value of [uniqueSolutions] after the two loops, for the operands
    [nums], with a fresh [seenKeys]. *)
Definition uniqueSolutions (nums : list float) : option (list Expression.t) :=
  fst <$> searchPerms (generatePermutations nums) generateOperations [] ∅.

End Solver.

(** [strconv.FormatFloat(n, 'g', -1, 64)] and [%.0f] agree on the whole
    numbers 1 to 9, the operands [parseInput] lets through: both print the
    digit.  [digit] is that common table; it is used to run the solver on
    concrete operands and says nothing about other floats (it prints them as
    a question mark). *)
Definition digit (n : float) : string :=
  if PrimFloat.eqb n 1 then "1" else if PrimFloat.eqb n 2 then "2"
  else if PrimFloat.eqb n 3 then "3" else if PrimFloat.eqb n 4 then "4"
  else if PrimFloat.eqb n 5 then "5" else if PrimFloat.eqb n 6 then "6"
  else if PrimFloat.eqb n 7 then "7" else if PrimFloat.eqb n 8 then "8"
  else if PrimFloat.eqb n 9 then "9" else "?".

(** ** Reading a formula text

    A formula as [findSolutions] prints it is a fully parenthesised binary
    expression over its operands.  [Formula] is its syntax, [render] its
    text under the templates' spacing, and [evalFormula] its value in
    float64 arithmetic. *)
Inductive Formula : Type :=
  | Lit (v : float)
  | Bin (l : Formula) (op : string) (r : Formula).

Fixpoint renderOperand (fmt0 : float -> string) (f : Formula) : string :=
  match f with
  | Lit v => fmt0 v
  | Bin l op r =>
      "(" +:+ renderOperand fmt0 l +:+ " " +:+ op +:+ " "
          +:+ renderOperand fmt0 r +:+ ")"
  end.

Definition render (fmt0 : float -> string) (f : Formula) : string :=
  match f with
  | Lit v => fmt0 v
  | Bin l op r =>
      renderOperand fmt0 l +:+ " " +:+ op +:+ " " +:+ renderOperand fmt0 r
  end.

(** The binary operation an operator symbol stands for, with no guard on the
    divisor. *)
Definition applyOperator (op : string) (a b : float) : option float :=
  if String.eqb op "+" then Some (PrimFloat.add a b)
  else if String.eqb op "-" then Some (PrimFloat.sub a b)
  else if String.eqb op "*" then Some (PrimFloat.mul a b)
  else if String.eqb op "/" then Some (PrimFloat.div a b)
  else None.

Fixpoint evalFormula (f : Formula) : option float :=
  match f with
  | Lit v => Some v
  | Bin l op r =>
      a ← evalFormula l; b ← evalFormula r; applyOperator op a b
  end.

(** The formula an expression tree stands for: its leaves and operators,
    without the memoized values of the internal nodes. *)
Fixpoint treeFormula (node : Node.t) : option Formula :=
  match node with
  | Node.mk op value nleft nright =>
      match nleft, nright with
      | None, None => Some (Lit value)
      | Some l, Some r =>
          fl ← treeFormula l; fr ← treeFormula r; Some (Bin fl op fr)
      | _, _ => None
      end
  end.

(** The five parenthesisations of four operands [a b c d] under operators
    [op1 op2 op3], numbered as the comments of [findSolutions] number them. *)
Definition shape (k : nat) (a b c d : float) (op1 op2 op3 : string)
  : option Formula :=
  match k with
  | 1%nat => Some (Bin (Bin (Bin (Lit a) op1 (Lit b)) op2 (Lit c)) op3 (Lit d))
  | 2%nat => Some (Bin (Bin (Lit a) op1 (Bin (Lit b) op2 (Lit c))) op3 (Lit d))
  | 3%nat => Some (Bin (Lit a) op1 (Bin (Bin (Lit b) op2 (Lit c)) op3 (Lit d)))
  | 4%nat => Some (Bin (Lit a) op1 (Bin (Lit b) op2 (Bin (Lit c) op3 (Lit d))))
  | 5%nat => Some (Bin (Bin (Lit a) op1 (Lit b)) op2 (Bin (Lit c) op3 (Lit d)))
  | _ => None
  end.

(** ** Vocabulary of the statements *)

(** A well-formed tree: every node has both children or none. *)
Fixpoint wellFormed (node : Node.t) : Prop :=
  match node with
  | Node.mk _ _ nleft nright =>
      match nleft, nright with
      | None, None => True
      | Some l, Some r => wellFormed l ∧ wellFormed r
      | _, _ => False
      end
  end.

(** [&Node{op: op, value: v, left: l, right: r}] with [v] the value of
    [l op r], as [findSolutions] builds its internal nodes. *)
Definition binary (l : Node.t) (op : string) (r : Node.t) : Node.t :=
  Node.mk op (fst (calculate (Node.value l) (Node.value r) op))
    (Some l) (Some r).

(** The three groupings of [a op b op c] that the canonicaliser is meant to
    identify. *)
Definition groupLeft (op : string) (a b c : float) : Node.t :=
  binary (binary (leaf a) op (leaf b)) op (leaf c).

Definition groupRight (op : string) (a b c : float) : Node.t :=
  binary (leaf a) op (binary (leaf b) op (leaf c)).

Definition groupMirror (op : string) (a b c : float) : Node.t :=
  binary (leaf c) op (binary (leaf b) op (leaf a)).

(** The operands of [nums] at the positions [order], in that order. *)
Definition reorder (nums : list float) (order : list nat) : list float :=
  (fun i => default 0%float (nums !! i)) <$> order.

(** [t] is a tree of shape [k] over the operands [p0..p3] and the operators
    [o0..o2]; its root holds the value of that formula, which is within
    1e-9 of 24. *)
Definition builtBy (k : nat) (p0 p1 p2 p3 : float) (o0 o1 o2 : string)
    (t : Node.t) : Prop :=
  ∃ f, shape k p0 p1 p2 p3 o0 o1 o2 = Some f ∧
       treeFormula t = Some f ∧
       evalFormula f = Some (Node.value t) ∧
       isApproximately24 (Node.value t) = true.

(** ** Discovery order

    The traversal of [main] and [findSolutions], written as the list of the
    candidates it meets, in the order it meets them. *)

(** A candidate: a tree of value 24 met for the ordering [cand_perm] and the
    operators [cand_ops]; [cand_shape] is the number (1 to 5) of the pattern
    that built it and [cand_index] its index in the slice [trees]. *)
Record Candidate : Type := mkCandidate {
  cand_perm : list float;
  cand_ops : list string;
  cand_shape : nat;
  cand_index : nat;
  cand_tree : Node.t
}.

(** The trees of [buildTrees], each with the number of its pattern. *)
Definition taggedTrees (a b c d : Node.t) (op0 op1 op2 : string)
  : list (nat * Node.t) :=
  (pair 1%nat <$> pattern1 a b c d op0 op1 op2) ++
  (pair 2%nat <$> pattern2 a b c d op0 op1 op2) ++
  (pair 3%nat <$> pattern3 a b c d op0 op1 op2) ++
  (pair 4%nat <$> pattern4 a b c d op0 op1 op2) ++
  (pair 5%nat <$> pattern5 a b c d op0 op1 op2).

(** Candidates for the trees [tagged], the first of which has index [i]. *)
Fixpoint indexFrom (perm : list float) (ops : list string) (i : nat)
    (tagged : list (nat * Node.t)) : list Candidate :=
  match tagged with
  | [] => []
  | (k, tree) :: rest =>
      mkCandidate perm ops k i tree :: indexFrom perm ops (S i) rest
  end.

(** The candidates of one call of [findSolutions], in the order of the
    patterns 1 to 5. *)
Definition candidatesOf (perm : list float) (ops : list string)
  : list Candidate :=
  default []
    (p0 ← perm !! 0%nat; p1 ← perm !! 1%nat;
     p2 ← perm !! 2%nat; p3 ← perm !! 3%nat;
     o0 ← ops !! 0%nat; o1 ← ops !! 1%nat; o2 ← ops !! 2%nat;
     Some (indexFrom perm ops 0
             (taggedTrees (leaf p0) (leaf p1) (leaf p2) (leaf p3) o0 o1 o2))).

(** All candidates of a search: orderings outermost, in the order of
    [generatePermutations]; operator triples next, in the order of
    [generateOperations]; patterns innermost. *)
Definition discovered (nums : list float) : list Candidate :=
  generatePermutations nums ≫= (fun perm =>
    generateOperations ≫= (fun ops => candidatesOf perm ops)).

(** The elements of [l] whose key occurs neither in [seen] nor earlier in
    [l], in the order of [l]. *)
Fixpoint firstOccurrences {A : Type} (key : A -> string)
    (seen : gset string) (l : list A) : list A :=
  match l with
  | [] => []
  | x :: l' =>
      if decide (key x ∈ seen)
      then firstOccurrences key ({[key x]} ∪ seen) l'
      else x :: firstOccurrences key ({[key x]} ∪ seen) l'
  end.

(** The key of a candidate (the empty string stands for the key of an
    ill-formed tree, which no candidate has: [candidates_wellFormed]). *)
Definition keyOf (FormatFloat : float -> string) (c : Candidate) : string :=
  default "" (getCanonicalKey FormatFloat (cand_tree c)).

(** The formula text [findSolutions] prints for the tree at index [i]. *)
Definition printed (FormatFixed0 : float -> string)
    (perm : list float) (ops : list string) (i : nat) : string :=
  default ""
    (p0 ← perm !! 0%nat; p1 ← perm !! 1%nat;
     p2 ← perm !! 2%nat; p3 ← perm !! 3%nat;
     o0 ← ops !! 0%nat; o1 ← ops !! 1%nat; o2 ← ops !! 2%nat;
     Sprintf FormatFixed0 (formulaAt (i + 1))
       [ArgFloat p0; ArgString o0; ArgFloat p1; ArgString o1;
        ArgFloat p2; ArgString o2; ArgFloat p3]).

(** The Solution recorded for an accepted candidate. *)
Definition solutionOf (FormatFixed0 : float -> string) (c : Candidate)
  : Expression.t :=
  Expression.mk
    (printed FormatFixed0 (cand_perm c) (cand_ops c) (cand_index c))
    (Node.value (cand_tree c)).

(** [seenKeys], as the set of the keys it marks present. *)
Definition marks (seenKeys : gmap string bool) (seen : gset string) : Prop :=
  ∀ k, default false (seenKeys !! k) = true ↔ k ∈ seen.

(** ** Commuting the operands of sums and products

    [commuted t t'] holds when [t'] is [t] with the two children of some of
    its "+" and "*" nodes exchanged; the memoized values of internal nodes
    are not compared. *)
Inductive commuted : Node.t -> Node.t -> Prop :=
  | commuted_same (t : Node.t) : commuted t t
  | commuted_keep (op : string) (v v' : float) (x y x' y' : Node.t) :
      commuted x x' -> commuted y y' ->
      commuted (Node.mk op v (Some x) (Some y))
               (Node.mk op v' (Some x') (Some y'))
  | commuted_swap (op : string) (v v' : float) (x y x' y' : Node.t) :
      op = "+" \/ op = "*" ->
      commuted x x' -> commuted y y' ->
      commuted (Node.mk op v (Some x) (Some y))
               (Node.mk op v' (Some y') (Some x')).

(** Two runs of [collectOperands] agree up to the order of what they
    collect: both panic, or they return rearrangements of one another. *)
Definition sameOperands (r1 r2 : option (list string)) : Prop :=
  match r1, r2 with
  | Some l1, Some l2 => l1 ≡ₚ l2
  | None, None => True
  | _, _ => False
  end.

(** The keys a registry marks present: those it maps to [true] (a key it
    maps to [false] reads as absent, like a key it does not hold). *)
Definition markedKeys (seenKeys : gmap string bool) : gset string :=
  dom (filter (λ kv : string * bool, kv.2 = true) seenKeys).

(** ** [findSolutions] on any map value (main.go, lines 140-217)

    A Go map value is nil or a map made by [make].  [main] passes a made
    map (line 285), and [findSolutions] above is the function on made maps.
    Here [seenKeys] is any map value, [None] being the nil map: reading a
    key of a nil map yields the zero value [false], and the assignment
    [seenKeys[key] = true] of line 211 panics on it. *)

Section AnyMap.

Variable FormatFloat : float -> string.
Variable FormatFixed0 : float -> string.

Fixpoint collectLoopAnyMap (p0 p1 p2 p3 : float) (o0 o1 o2 : string)
    (i : nat) (trees : list Node.t)
    (seenKeys : option (gmap string bool)) (results : list Expression.t)
  : option (list Expression.t * option (gmap string bool)) :=
  match trees with
  | [] => Some (results, seenKeys)
  | tree :: trees' =>
      key ← getCanonicalKey FormatFloat tree;
      if negb (default false (made ← seenKeys; made !! key)) then
        made ← seenKeys;
        formula ←
          Sprintf FormatFixed0 (formulaAt (i + 1))
            [ArgFloat p0; ArgString o0; ArgFloat p1; ArgString o1;
             ArgFloat p2; ArgString o2; ArgFloat p3];
        collectLoopAnyMap p0 p1 p2 p3 o0 o1 o2 (S i) trees'
          (Some (<[key := true]> made))
          (results ++ [Expression.mk formula (Node.value tree)])
      else
        collectLoopAnyMap p0 p1 p2 p3 o0 o1 o2 (S i) trees' seenKeys results
  end.

Definition findSolutionsAnyMap (perm : list float) (ops : list string)
    (seenKeys : option (gmap string bool))
  : option (list Expression.t * option (gmap string bool)) :=
  p0 ← perm !! 0%nat; p1 ← perm !! 1%nat;
  p2 ← perm !! 2%nat; p3 ← perm !! 3%nat;
  o0 ← ops !! 0%nat; o1 ← ops !! 1%nat; o2 ← ops !! 2%nat;
  collectLoopAnyMap p0 p1 p2 p3 o0 o1 o2 0
    (buildTrees (leaf p0) (leaf p1) (leaf p2) (leaf p3) o0 o1 o2)
    seenKeys [].

End AnyMap.

(** ** Memoized values

    [evaluated t] holds when every internal node of [t] memoizes the value
    that [calculate] returns, with [ok], on the values of its two
    children. *)
Inductive evaluated : Node.t -> Prop :=
  | evaluated_leaf (v : float) : evaluated (leaf v)
  | evaluated_node (op : string) (v : float) (x y : Node.t) :
      evaluated x -> evaluated y ->
      calculate (Node.value x) (Node.value y) op = (v, true) ->
      evaluated (Node.mk op v (Some x) (Some y)).

(** ** Reading the operands (main.go, lines 219-253) *)

(** [strings.Contains(s, sep)] and [strings.Split(s, sep)] for a separator
    of one byte, as [parseInput] calls them: both work on the bytes of [s]. *)
Fixpoint Contains (s : string) (sep : ascii) : bool :=
  match s with
  | EmptyString => false
  | String c rest => if Ascii.eqb c sep then true else Contains rest sep
  end.

Fixpoint Split (s : string) (sep : ascii) : list string :=
  match s with
  | EmptyString => [EmptyString]
  | String c rest =>
      if Ascii.eqb c sep then EmptyString :: Split rest sep
      else
        match Split rest sep with
        | piece :: pieces => String c piece :: pieces
        | [] => [String c EmptyString]
        end
  end.

(** [char < '0' || char > '9'], on a byte. *)
Definition notDigit (c : ascii) : bool :=
  (nat_of_ascii c <? 48)%nat || (57 <? nat_of_ascii c)%nat.

(** The result of [parseInput]: the operands, or the text of the error. *)
Inductive Parse : Type :=
  | Parsed (nums : list float)
  | Rejected (err : string).

Section Input.

(** [strings.TrimSpace] and [strings.Fields], which go by Unicode white
    space; [strconv.ParseFloat(part, 64)], [None] standing for a non-nil
    error; [math.Floor]; and the text [fmt] prints for a float under [%g],
    which is that of [strconv.FormatFloat(n, 'g', -1, 64)]. *)
Variable TrimSpace : string -> string.
Variable Fields : string -> list string.
Variable ParseFloat : string -> option float.
Variable Floor : float -> float.
Variable FormatFloat : float -> string.

(** The loop [for i, char := range input] of the branch [len(input) == 4].
    A byte that is no digit starts a rune that is no digit, and a digit is a
    rune of one byte, so the loop fails exactly when some byte is no digit;
    otherwise [parts[i]] is the one-byte string of the digit at index [i]. *)
Fixpoint digitParts (input : string) : option (list string) :=
  match input with
  | EmptyString => Some []
  | String char rest =>
      if notDigit char then None
      else parts ← digitParts rest; Some (String char EmptyString :: parts)
  end.

(** The loop [for _, part := range parts], with [nums] as gathered so far. *)
Fixpoint parseParts (parts : list string) (nums : list float) : Parse :=
  match parts with
  | [] => Parsed nums
  | part :: rest =>
      let part := TrimSpace part in
      match ParseFloat part with
      | None => Rejected ("'" +:+ part +:+ "' is not a valid number")
      | Some num =>
          if PrimFloat.ltb num 1 || PrimFloat.ltb 9 num
             || negb (PrimFloat.eqb num (Floor num))
          then Rejected ("numbers must be digits 1-9, found: "
                           +:+ FormatFloat num)
          else parseParts rest (nums ++ [num])
      end
  end.

(** What follows the choice of [parts]. *)
Definition checkParts (parts : list string) : Parse :=
  if negb (Nat.eqb (length parts) 4)
  then Rejected "you must enter exactly 4 numbers"
  else parseParts parts [].

Definition parseInput (input : string) : Parse :=
  let input := TrimSpace input in
  if Contains input ","%char then checkParts (Split input ","%char)
  else if Contains input " "%char then checkParts (Fields input)
  else if Nat.eqb (String.length input) 4 then
    match digitParts input with
    | None =>
        Rejected "input must be numeric if no spaces/commas are used"
    | Some parts => checkParts parts
    end
  else checkParts (Fields input).

End Input.

(** ** The session of [main] (main.go, lines 255-305)

    [main] reads lines from standard input through a [bufio.Scanner] and
    writes to standard output.  The session is a function of the lines the
    scanner delivers before [Scan] returns false; its result is the list of
    the texts written, one per call of [fmt.Print], [fmt.Println] or
    [fmt.Printf], in order, or [None] for a panic. *)

Definition nl : string := String "010"%char EmptyString.

Definition Println (s : string) : string := s +:+ nl.

Definition rule : string := "===============================".

Definition banner : list string :=
  [ Println "WELCOME TO THE 24 GAME SOLVER";
    Println rule;
    Println "Rules:";
    Println "- Enter 4 numbers (digits 1-9)";
    Println "- Format: 1 2 3 4 or 1,2,3,4 or 1234";
    Println "- The program will find all unique ways to make 24.";
    Println "- Supports: +, -, *, /";
    Println rule ].

Definition prompt : string := nl +:+ "Enter 4 numbers (or 'quit' to exit): ".

Definition farewell : string := Println "Thank you for playing!".

Section Session.

Variable TrimSpace : string -> string.
Variable Fields : string -> list string.
Variable ParseFloat : string -> option float.
Variable Floor : float -> float.
Variable FormatFloat : float -> string.
Variable FormatFixed0 : float -> string.

(** [strings.ToLower], which goes by Unicode letter case. *)
Variable ToLower : string -> string.

(** The loop [for i, solution := range uniqueSolutions] of the report,
    from index [i] on; [%d] prints the decimal digits of [i+1]. *)
Fixpoint reportLoop (i : nat) (solutions : list Expression.t) : list string :=
  match solutions with
  | [] => []
  | solution :: rest =>
      (pretty (i + 1)%nat +:+ ". " +:+ Expression.formula solution +:+ " = "
         +:+ FormatFixed0 (Expression.value solution) +:+ nl)
        :: reportLoop (S i) rest
  end.

Definition report (solutions : list Expression.t) : list string :=
  if Nat.eqb (length solutions) 0
  then [Println "No solutions found for these numbers."]
  else ("Found " +:+ pretty (length solutions) +:+ " unique solution(s):"
          +:+ nl +:+ nl)
         :: reportLoop 0 solutions.

(** What one line that [parseInput] accepted makes [main] write. *)
Definition searchRound (nums : list float) : option (list string) :=
  n0 ← nums !! 0%nat; n1 ← nums !! 1%nat;
  n2 ← nums !! 2%nat; n3 ← nums !! 3%nat;
  solutions ← uniqueSolutions FormatFloat FormatFixed0 nums;
  Some ([ nl +:+ "Searching for solutions with: " +:+ FormatFixed0 n0
            +:+ ", " +:+ FormatFixed0 n1 +:+ ", " +:+ FormatFixed0 n2
            +:+ ", " +:+ FormatFixed0 n3 +:+ nl;
          Println rule ]
        ++ report solutions ++ [Println (nl +:+ rule)]).

(** The loop [for { ... }] of [main] over the lines still to be read. *)
Fixpoint session (lines : list string) : option (list string) :=
  match lines with
  | [] => Some [prompt]
  | input :: rest =>
      if String.eqb (ToLower (TrimSpace input)) "quit"
      then Some [prompt; farewell]
      else
        match parseInput TrimSpace Fields ParseFloat Floor FormatFloat input
        with
        | Rejected err =>
            out ← session rest;
            Some (prompt :: ("Error: " +:+ err +:+ nl) :: out)
        | Parsed nums =>
            round ← searchRound nums;
            out ← session rest;
            Some (prompt :: round ++ out)
        end
  end.

Definition main (lines : list string) : option (list string) :=
  out ← session lines; Some (banner ++ out).

End Session.

(** ** Vocabulary of the statements on [parseInput] *)

(** The number of bytes of [s] equal to [sep]: [strings.Count] for a
    separator of one byte. *)
Fixpoint Count (s : string) (sep : ascii) : nat :=
  match s with
  | EmptyString => 0
  | String c rest => if Ascii.eqb c sep then S (Count rest sep) else Count rest sep
  end.

(** The digits 1 to 9 and the float64 a digit stands for. *)
Definition digit19 (c : ascii) : Prop :=
  (49 <= nat_of_ascii c <= 57)%nat.

Definition digitValue (c : ascii) : float :=
  PrimFloat.of_uint63 (Uint63.of_Z (Z.of_nat (nat_of_ascii c) - 48)).

(** ** The library routines on ASCII texts of one-digit operands

    These agree with the Go routines on the texts the runs below use: white
    space is the ASCII white space, the letters are the ASCII letters, the
    numbers are texts of one decimal digit (anything else is refused), and
    [floorSmall] is [math.Floor] between 0 and 2^52. *)
Fixpoint dropSpace (s : string) : string :=
  match s with
  | EmptyString => EmptyString
  | String c rest => if Ascii.is_space c then dropSpace rest else s
  end.

Definition asciiTrimSpace (s : string) : string :=
  String.rev (dropSpace (String.rev (dropSpace s))).

Definition asciiFields (s : string) : list string := String.words s.

Definition parseDigit (s : string) : option float :=
  match s with
  | String c EmptyString => if notDigit c then None else Some (digitValue c)
  | _ => None
  end.

Definition floorSmall (x : float) : float :=
  let r := (x + 0x1p52 - 0x1p52)%float in
  if PrimFloat.ltb x r then (r - 1)%float else r.

Fixpoint asciiToLower (s : string) : string :=
  match s with
  | EmptyString => EmptyString
  | String c rest =>
      String
        (if (65 <=? nat_of_ascii c)%nat && (nat_of_ascii c <=? 90)%nat
         then ascii_of_nat (nat_of_ascii c + 32) else c)
        (asciiToLower rest)
  end.

(** * Properties *)

(** ** The evaluation step *)

Lemma calculate_add (a b : float) :
  calculate a b "+" = (PrimFloat.add a b, true).
Proof. reflexivity. Qed.

Lemma calculate_sub (a b : float) :
  calculate a b "-" = (PrimFloat.sub a b, true).
Proof. reflexivity. Qed.

Lemma calculate_mul (a b : float) :
  calculate a b "*" = (PrimFloat.mul a b, true).
Proof. reflexivity. Qed.

Lemma calculate_div (a b : float) :
  calculate a b "/" =
    if PrimFloat.ltb (PrimFloat.abs b) 1e-9%float
    then (0%float, false) else (PrimFloat.div a b, true).
Proof. reflexivity. Qed.

(** C5. [calculate] fails exactly when the operator is "/" and the absolute
    value of the right operand is below 1e-9; on "+", "-" and "*" it succeeds
    with the sum, the difference and the product, and a "/" that succeeds
    returns the quotient. *)
Theorem calculate_fails_exactly_on_small_divisor (a b : float) :
  calculate a b "+" = (PrimFloat.add a b, true) ∧
  calculate a b "-" = (PrimFloat.sub a b, true) ∧
  calculate a b "*" = (PrimFloat.mul a b, true) ∧
  calculate a b "/" =
    (if PrimFloat.ltb (PrimFloat.abs b) 1e-9%float
     then (0%float, false) else (PrimFloat.div a b, true)) ∧
  Forall
    (fun op =>
       snd (calculate a b op) = false ↔
       op = "/" ∧ PrimFloat.ltb (PrimFloat.abs b) 1e-9%float = true)
    operations.
Proof.
  repeat split_and; try reflexivity.
  unfold operations.
  repeat apply Forall_cons_2; [| | | | apply Forall_nil_2].
  - rewrite calculate_add. split; [discriminate | intros [? _]; discriminate].
  - rewrite calculate_sub. split; [discriminate | intros [? _]; discriminate].
  - rewrite calculate_mul. split; [discriminate | intros [? _]; discriminate].
  - rewrite calculate_div.
    destruct (PrimFloat.ltb (PrimFloat.abs b) _); simpl.
    + by split.
    + split; [discriminate | intros [_ ?]; discriminate].
Qed.

(** C10. [calculate] is a total function (its result type has no failure
    case), and on an operator string outside {+, -, *, /} it returns
    [(0, false)]. *)
Theorem calculate_unknown_operator (a b : float) (op : string) :
  op ∉ operations → calculate a b op = (0%float, false).
Proof.
  intros Hop. unfold calculate.
  assert (Hne : ∀ o, o ∈ operations → String.eqb op o = false).
  { intros o Ho. apply String.eqb_neq. by intros ->. }
  rewrite !Hne; [reflexivity | unfold operations; set_solver..].
Qed.

Lemma calculate_unknown_operator_witness :
  "^" ∉ operations ∧ calculate 2 3 "^" = (0%float, false).
Proof.
  assert (H : "^" ∉ operations) by (unfold operations; set_solver).
  split; [exact H | exact (calculate_unknown_operator 2 3 "^" H)].
Defined.

(** ** The permutation generator *)

Lemma length_bind_const {A B} (f : A → list B) (l : list A) (k : nat) :
  (∀ x, x ∈ l → length (f x) = k) → length (l ≫= f) = (length l * k)%nat.
Proof.
  induction l as [|x l IH]; intros Hf; csimpl; [done|].
  rewrite length_app, Hf, IH; [lia | | by left].
  intros y Hy. apply Hf. by right.
Qed.

Lemma remaining_delete (nums : list float) (i : nat) :
  remaining nums i = delete i nums.
Proof. unfold remaining. by rewrite delete_take_drop. Qed.

Lemma generatePermutationsFuel_short (fuel : nat) (nums : list float) :
  (length nums ≤ 1)%nat → generatePermutationsFuel fuel nums = [nums].
Proof.
  intros Hlen. destruct fuel; simpl;
    by destruct (Nat.leb_spec (length nums) 1); [|lia].
Qed.

Lemma generatePermutationsFuel_long (fuel : nat) (nums : list float) :
  (1 < length nums)%nat →
  generatePermutationsFuel (S fuel) nums =
    imap (fun i num => (i, num)) nums ≫=
      (fun '(i, num) =>
         (fun perm => num :: perm) <$>
           generatePermutationsFuel fuel (remaining nums i)).
Proof.
  intros Hlen. simpl.
  by destruct (Nat.leb_spec (length nums) 1); [lia|].
Qed.

(** Every ordering produced is a rearrangement of the input. *)
Lemma generatePermutationsFuel_Permutation (fuel : nat) :
  ∀ (nums p : list float),
    p ∈ generatePermutationsFuel fuel nums → p ≡ₚ nums.
Proof.
  induction fuel as [|fuel IH]; intros nums p Hp.
  - simpl in Hp. destruct (Nat.leb_spec (length nums) 1).
    + by apply list_elem_of_singleton in Hp as ->.
    + by apply elem_of_nil in Hp.
  - destruct (Nat.le_gt_cases (length nums) 1) as [Hlen|Hlen].
    + rewrite generatePermutationsFuel_short in Hp by done.
      by apply list_elem_of_singleton in Hp as ->.
    + rewrite generatePermutationsFuel_long in Hp by done.
      apply list_elem_of_bind in Hp as ([i num] & Hp & Hi).
      apply elem_of_lookup_imap in Hi as (i' & x & [= <- <-] & Hi).
      apply list_elem_of_fmap in Hp as (q & -> & Hq).
      apply IH in Hq. rewrite remaining_delete in Hq.
      rewrite Hq. symmetry. by apply delete_Permutation.
Qed.

(** Every rearrangement of the input is produced. *)
Lemma generatePermutationsFuel_complete (fuel : nat) :
  ∀ (nums p : list float),
    (length nums ≤ fuel)%nat → p ≡ₚ nums →
    p ∈ generatePermutationsFuel fuel nums.
Proof.
  induction fuel as [|fuel IH]; intros nums p Hfuel Hp.
  - rewrite generatePermutationsFuel_short by lia.
    destruct nums; [|simpl in Hfuel; lia].
    apply Permutation_nil_r in Hp as ->. by left.
  - destruct (Nat.le_gt_cases (length nums) 1) as [Hlen|Hlen].
    + rewrite generatePermutationsFuel_short by done.
      destruct nums as [|x [|y nums]]; [| |simpl in Hlen; lia].
      * apply Permutation_nil_r in Hp as ->. by left.
      * apply Permutation_singleton_r in Hp as ->. by left.
    + rewrite generatePermutationsFuel_long by done.
      destruct p as [|x q].
      { symmetry in Hp. apply Permutation_nil_r in Hp as ->.
        simpl in Hlen. lia. }
      assert (Hx : x ∈ nums) by (rewrite <- Hp; by left).
      apply list_elem_of_lookup in Hx as [i Hi].
      apply list_elem_of_bind. exists (i, x). split.
      * apply list_elem_of_fmap. exists q. split; [done|].
        apply IH.
        -- rewrite remaining_delete, length_delete by eauto. lia.
        -- rewrite remaining_delete.
           apply (inj (cons x)). rewrite Hp. by apply delete_Permutation.
      * apply elem_of_lookup_imap. by exists i, x.
Qed.

(** With enough fuel there are [n!] orderings of [n] operands. *)
Lemma generatePermutationsFuel_length (fuel : nat) :
  ∀ nums : list float,
    (length nums ≤ fuel)%nat →
    length (generatePermutationsFuel fuel nums) = fact (length nums).
Proof.
  induction fuel as [|fuel IH]; intros nums Hfuel.
  - rewrite generatePermutationsFuel_short by lia.
    by destruct nums; [|simpl in Hfuel; lia].
  - destruct (Nat.le_gt_cases (length nums) 1) as [Hlen|Hlen].
    + rewrite generatePermutationsFuel_short by done.
      by destruct nums as [|x [|y nums]]; [| |simpl in Hlen; lia].
    + rewrite generatePermutationsFuel_long by done.
      rewrite (length_bind_const _ _ (fact (length nums - 1))).
      * rewrite length_imap. destruct nums; [simpl in Hlen; lia|].
        simpl. rewrite Nat.sub_0_r. lia.
      * intros [i x] Hi.
        apply elem_of_lookup_imap in Hi as (i' & x' & [= <- <-] & Hi).
        rewrite length_fmap, IH;
          rewrite remaining_delete, length_delete by eauto; [done|lia].
Qed.

(** The counter of [generatePermutationsFuel] is never exhausted when it
    starts at the length of the slice or above. *)
Lemma generatePermutationsFuel_enough (fuel : nat) :
  ∀ nums : list float,
    (length nums ≤ fuel)%nat →
    generatePermutationsFuel fuel nums = generatePermutations nums.
Proof.
  unfold generatePermutations.
  induction fuel as [|fuel IH]; intros nums Hfuel.
  - by rewrite !generatePermutationsFuel_short by lia.
  - destruct (Nat.le_gt_cases (length nums) 1) as [Hlen|Hlen].
    + by rewrite !generatePermutationsFuel_short by done.
    + destruct (length nums) as [|n] eqn:Hn; [lia|].
      rewrite !generatePermutationsFuel_long by lia.
      apply Forall_bind_ext, Forall_forall. intros [i x] Hi.
      apply elem_of_lookup_imap in Hi as (i' & x' & [= <- <-] & Hi).
      assert (Hd : length (remaining nums i) = n).
      { rewrite remaining_delete, length_delete by eauto. lia. }
      f_equal. rewrite IH by lia. by rewrite Hd.
Qed.

(** Distinct operands give pairwise distinct orderings. *)
Lemma generatePermutationsFuel_NoDup (fuel : nat) :
  ∀ nums : list float,
    NoDup nums → NoDup (generatePermutationsFuel fuel nums).
Proof.
  induction fuel as [|fuel IH]; intros nums Hnd.
  - simpl. destruct (Nat.leb (length nums) 1);
      [apply NoDup_singleton | apply NoDup_nil_2].
  - destruct (Nat.le_gt_cases (length nums) 1) as [Hlen|Hlen].
    + rewrite generatePermutationsFuel_short by done. apply NoDup_singleton.
    + rewrite generatePermutationsFuel_long by done.
      apply NoDup_bind.
      * intros [i1 x1] [i2 x2] p H1 H2 Hp1 Hp2.
        apply elem_of_lookup_imap in H1 as (? & ? & [= <- <-] & H1).
        apply elem_of_lookup_imap in H2 as (? & ? & [= <- <-] & H2).
        apply list_elem_of_fmap in Hp1 as (q1 & -> & _).
        apply list_elem_of_fmap in Hp2 as (q2 & [= <- _] & _).
        f_equal. by eapply NoDup_lookup.
      * intros [i x] Hi.
        apply elem_of_lookup_imap in Hi as (? & ? & [= <- <-] & Hi).
        apply (NoDup_fmap_2 _), IH.
        rewrite remaining_delete.
        eapply sublist_NoDup; [done | apply sublist_delete].
      * apply NoDup_alt. intros i j [k x] Hi Hj.
        rewrite list_lookup_imap in Hi, Hj.
        destruct (nums !! i); destruct (nums !! j); naive_solver.
Qed.

Lemma reorder_seq (nums : list float) :
  reorder nums (seq 0 (length nums)) = nums.
Proof.
  unfold reorder. apply list_eq. intros i.
  rewrite list_lookup_fmap.
  destruct (decide (i < length nums)%nat) as [Hi|Hi].
  - rewrite lookup_seq_lt by done. simpl.
    by destruct (lookup_lt_is_Some_2 nums i Hi) as [x ->].
  - rewrite lookup_seq_ge, lookup_ge_None_2 by lia. done.
Qed.

(** C7. For four operands [generatePermutations] returns exactly 24
    orderings; every ordering of the four positions occurs among them; and
    each of them holds every input operand exactly once (it is a
    rearrangement of the input).  Operands that are pairwise distinct give
    24 pairwise distinct orderings. *)
Theorem generatePermutations_four (nums : list float) :
  length nums = 4%nat →
  length (generatePermutations nums) = 24%nat ∧
  (∀ order : list nat,
     order ≡ₚ [0; 1; 2; 3]%nat → reorder nums order ∈ generatePermutations nums) ∧
  (∀ p, p ∈ generatePermutations nums → p ≡ₚ nums) ∧
  (NoDup nums → NoDup (generatePermutations nums)).
Proof.
  intros Hlen. unfold generatePermutations. split_and!.
  - rewrite generatePermutationsFuel_length by done. by rewrite Hlen.
  - intros order Horder.
    apply generatePermutationsFuel_complete; [done|].
    rewrite <- (reorder_seq nums) at 2. rewrite Hlen.
    unfold reorder. by rewrite Horder.
  - apply generatePermutationsFuel_Permutation.
  - apply generatePermutationsFuel_NoDup.
Qed.

Lemma generatePermutations_four_witness :
  length (generatePermutations [1; 2; 3; 4]%float) = 24%nat ∧
  (∀ order : list nat,
     order ≡ₚ [0; 1; 2; 3]%nat →
     reorder [1; 2; 3; 4]%float order ∈ generatePermutations [1; 2; 3; 4]%float) ∧
  (∀ p, p ∈ generatePermutations [1; 2; 3; 4]%float → p ≡ₚ [1; 2; 3; 4]%float) ∧
  (NoDup [1; 2; 3; 4]%float → NoDup (generatePermutations [1; 2; 3; 4]%float)).
Proof. apply (generatePermutations_four [1; 2; 3; 4]%float). reflexivity. Defined.

(** ** Canonical keys *)

(** Induction over expression trees: the children of a node are smaller. *)
Lemma Node_ind' (P : Node.t → Prop) :
  (∀ op value nleft nright,
     (∀ l, nleft = Some l → P l) → (∀ r, nright = Some r → P r) →
     P (Node.mk op value nleft nright)) →
  ∀ node, P node.
Proof.
  intros Hstep. fix IH 1. intros [op value nleft nright].
  apply Hstep.
  - destruct nleft as [l|]; intros l' Hl;
      [injection Hl as <-; apply IH | discriminate].
  - destruct nright as [r|]; intros r' Hr;
      [injection Hr as <-; apply IH | discriminate].
Qed.

Lemma sortStrings_Sorted (l : list string) : Sorted String.le (sortStrings l).
Proof. apply (Sorted_merge_sort _). Qed.

Lemma sortStrings_Permutation (l : list string) : sortStrings l ≡ₚ l.
Proof. apply merge_sort_Permutation. Qed.

(** The sorted slice depends on the multiset of the operands only. *)
Lemma sortStrings_unique (l1 l2 : list string) :
  l1 ≡ₚ l2 → sortStrings l1 = sortStrings l2.
Proof.
  intros Hperm. apply (Sorted_unique String.le).
  - apply sortStrings_Sorted.
  - apply sortStrings_Sorted.
  - by rewrite !sortStrings_Permutation.
Qed.

Lemma sortStrings_mirror (x y z : string) :
  sortStrings [x; y; z] = sortStrings [z; y; x].
Proof.
  apply sortStrings_unique.
  apply (reverse_Permutation [z; y; x]).
Qed.

Lemma length_string_app (s1 s2 : string) :
  String.length (s1 +:+ s2) = (String.length s1 + String.length s2)%nat.
Proof. induction s1 as [|c s1 IH]; simpl; [done | by rewrite IH]. Qed.

Lemma length_Join (elems : list string) (sep : string) :
  String.length (Join elems sep) =
    (sum_list (String.length <$> elems) +
       String.length sep * (length elems - 1))%nat.
Proof.
  induction elems as [|e [|e' elems] IH]; simpl in *.
  - done.
  - rewrite Nat.add_0_r. lia.
  - rewrite !length_string_app in *. simpl in *. lia.
Qed.

Lemma length_Join_sortStrings (elems : list string) (sep : string) :
  String.length (Join (sortStrings elems) sep) =
    (sum_list (String.length <$> elems) +
       String.length sep * (length elems - 1))%nat.
Proof.
  rewrite length_Join.
  by rewrite (sortStrings_Permutation elems).
Qed.

Section KeyProperties.

Variable FormatFloat : float -> string.

Local Abbreviation key := (getCanonicalKey FormatFloat).

Lemma collectOperands_eq (node : Node.t) (op : string)
    (operands : list string) :
  collectOperands FormatFloat node op operands =
    if String.eqb (Node.op node) op then
      operands ←
        match Node.left node with
        | Some l => collectOperands FormatFloat l op operands
        | None => Some operands
        end;
      match Node.right node with
      | Some r => collectOperands FormatFloat r op operands
      | None => Some operands
      end
    else
      k ← key node; Some (operands ++ [k]).
Proof. by destruct node. Qed.

Lemma getCanonicalKey_eq (node : Node.t) :
  key node =
    match Node.left node, Node.right node with
    | None, None => Some (numStr FormatFloat (Node.value node))
    | Some l, Some r =>
        keyL ← key l;
        keyR ← key r;
        let op := Node.op node in
        if String.eqb op "*" && String.eqb keyL "1" then Some keyR
        else if String.eqb op "*" && String.eqb keyR "1" then Some keyL
        else if String.eqb op "/" && String.eqb keyR "1" then Some keyL
        else if String.eqb op "+" || String.eqb op "*" then
          operands ← collectOperands FormatFloat node op [];
          Some ("(" +:+ Join (sortStrings operands) op +:+ ")")
        else Some ("(" +:+ keyL +:+ op +:+ keyR +:+ ")")
    | _, _ => None
    end.
Proof.
  destruct node as [op value [l|] [r|]]; try reflexivity.
  cbn [Node.left Node.right Node.op Node.value].
  rewrite (collectOperands_eq (Node.mk op value (Some l) (Some r))).
  cbn [Node.left Node.right Node.op]. rewrite String.eqb_refl.
  unfold collectOperands. simpl.
  destruct (key l) as [keyL|]; [|done]. simpl.
  destruct (key r) as [keyR|]; [|done]. simpl.
  repeat case_match; try done.
  by destruct (collectOperandsWith _ l op []).
Qed.

(** [getCanonicalKey] and [collectOperands] have no failure mode on a
    well-formed tree. *)
Lemma getCanonicalKey_total (node : Node.t) :
  wellFormed node →
  is_Some (key node) ∧
  ∀ op operands, is_Some (collectOperands FormatFloat node op operands).
Proof.
  induction node as [op value nleft nright IHl IHr] using Node_ind'.
  intros Hwf.
  assert (Hkey : is_Some (key (Node.mk op value nleft nright))).
  { destruct nleft as [l|], nright as [r|]; simpl in Hwf; try done.
    destruct Hwf as [Hl Hr].
    destruct (IHl l eq_refl Hl) as [[keyL HkL] Hcl].
    destruct (IHr r eq_refl Hr) as [[keyR HkR] Hcr].
    simpl. rewrite HkL, HkR. simpl.
    repeat case_match; try done.
    destruct (Hcl op []) as [ops1 Hops1]. unfold collectOperands in Hops1.
    rewrite Hops1. simpl.
    destruct (Hcr op ops1) as [ops2 Hops2]. unfold collectOperands in Hops2.
    by rewrite Hops2. }
  split; [done|]. intros op' operands.
  rewrite collectOperands_eq. cbn [Node.op Node.left Node.right].
  destruct (String.eqb op op').
  - destruct nleft as [l|], nright as [r|]; simpl in Hwf; try done.
    destruct Hwf as [Hl Hr].
    destruct (IHl l eq_refl Hl) as [_ Hcl].
    destruct (IHr r eq_refl Hr) as [_ Hcr].
    destruct (Hcl op' operands) as [ops1 ->]. simpl. apply Hcr.
  - destruct Hkey as [k ->]. done.
Qed.

(** C6. Multiplying by a leaf 1 on either side, or dividing by a leaf 1,
    leaves the canonical key of a well-formed tree [x] unchanged (the leaf 1
    prints as "1"; the memoized value [v] of the new node plays no part). *)
Theorem getCanonicalKey_identity (x : Node.t) (v : float) :
  numStr FormatFloat 1 = "1" → wellFormed x →
  is_Some (key x) ∧
  key (Node.mk "*" v (Some x) (Some (leaf 1))) = key x ∧
  key (Node.mk "*" v (Some (leaf 1)) (Some x)) = key x ∧
  key (Node.mk "/" v (Some x) (Some (leaf 1))) = key x.
Proof.
  intros Hone Hwf.
  destruct (getCanonicalKey_total x Hwf) as [[k Hk] _].
  split; [by exists k|].
  simpl. rewrite Hk, Hone. simpl.
  destruct (String.eqb_spec k "1") as [->|Hne]; by simpl.
Qed.

Lemma key_sum_groupLeft (a b c : float) :
  key (groupLeft "+" a b c) =
    Some ("(" +:+ Join (sortStrings
      [numStr FormatFloat a; numStr FormatFloat b; numStr FormatFloat c]) "+"
      +:+ ")").
Proof. reflexivity. Qed.

Lemma key_sum_groupRight (a b c : float) :
  key (groupRight "+" a b c) =
    Some ("(" +:+ Join (sortStrings
      [numStr FormatFloat a; numStr FormatFloat b; numStr FormatFloat c]) "+"
      +:+ ")").
Proof. reflexivity. Qed.

Lemma key_sum_groupMirror (a b c : float) :
  key (groupMirror "+" a b c) =
    Some ("(" +:+ Join (sortStrings
      [numStr FormatFloat c; numStr FormatFloat b; numStr FormatFloat a]) "+"
      +:+ ")").
Proof. reflexivity. Qed.

Lemma key_flat_inj_length (l1 l2 : list string) (sep : string) :
  Some ("(" +:+ Join (sortStrings l1) sep +:+ ")") =
    Some ("(" +:+ Join (sortStrings l2) sep +:+ ")") →
  (sum_list (String.length <$> l1) + String.length sep * (length l1 - 1) =
   sum_list (String.length <$> l2) + String.length sep * (length l2 - 1))%nat.
Proof.
  intros [= H]. apply (f_equal String.length) in H.
  rewrite !length_string_app, !length_Join_sortStrings in H. lia.
Qed.

Lemma key_sum_groupings (a b c : float) :
  key (groupLeft "+" a b c) = key (groupRight "+" a b c) ∧
  key (groupRight "+" a b c) = key (groupMirror "+" a b c).
Proof.
  rewrite key_sum_groupLeft, key_sum_groupRight, key_sum_groupMirror.
  split; [done|]. by rewrite sortStrings_mirror.
Qed.

(** When the three groupings of a product have the same key: the rule for
    multiplication by 1 is applied to the keys of the two children of a
    node, while the flattening collects the leaves of the whole chain, so a
    leaf 1 is dropped in one grouping and kept in another unless [b] prints
    as "1" or [a] and [c] agree on printing as "1". *)
Lemma key_product_groupings (a b c : float) :
  (key (groupLeft "*" a b c) = key (groupRight "*" a b c) ∧
   key (groupRight "*" a b c) = key (groupMirror "*" a b c)) ↔
  (numStr FormatFloat b = "1" ∨
   (numStr FormatFloat a = "1" ↔ numStr FormatFloat c = "1")).
Proof.
  unfold groupLeft, groupRight, groupMirror, binary, leaf. simpl.
  generalize (numStr FormatFloat a) (numStr FormatFloat b)
    (numStr FormatFloat c).
  intros ka kb kc.
  destruct (String.eqb_spec ka "1") as [Ha|Ha];
    destruct (String.eqb_spec kb "1") as [Hb|Hb];
    destruct (String.eqb_spec kc "1") as [Hc|Hc];
    try subst ka; try subst kb; try subst kc; simpl;
    rewrite ?(proj2 (String.eqb_neq _ _)) by done.
  - naive_solver.
  - naive_solver.
  - naive_solver.
  - split; [|naive_solver].
    intros [H%key_flat_inj_length _]. simpl in H. lia.
  - naive_solver.
  - split; [naive_solver|]. intros _. split; [done|].
    by rewrite sortStrings_mirror.
  - split; [|naive_solver].
    intros [H%key_flat_inj_length _]. simpl in H. lia.
  - split; [naive_solver|]. intros _. split; [done|].
    by rewrite sortStrings_mirror.
Qed.

End KeyProperties.

(** C4.  [getCanonicalKey] does not ignore the grouping of a product that
    has a leaf 1: with the leaf values 1, 2 and 3 the key of [(1*2)*3] is
    "(1*2*3)" and the key of [1*(2*3)] is "(2*3)".  The rule for
    multiplication by 1 drops the leaf 1 where it is a child of the node at
    hand, while [collectOperands] collects it again where it lies deeper in
    the chain. *)
Theorem getCanonicalKey_product_grouping_differs :
  getCanonicalKey digit (groupLeft "*" 1 2 3) = Some "(1*2*3)" ∧
  getCanonicalKey digit (groupRight "*" 1 2 3) = Some "(2*3)" ∧
  getCanonicalKey digit (groupLeft "*" 1 2 3) ≠
    getCanonicalKey digit (groupRight "*" 1 2 3).
Proof. vm_compute. repeat split. discriminate. Qed.

Lemma getCanonicalKey_identity_witness :
  numStr digit 1 = "1" ∧ wellFormed (binary (leaf 2) "+" (leaf 3)) ∧
  (is_Some (getCanonicalKey digit (binary (leaf 2) "+" (leaf 3))) ∧
   getCanonicalKey digit
     (Node.mk "*" 5 (Some (binary (leaf 2) "+" (leaf 3))) (Some (leaf 1))) =
     getCanonicalKey digit (binary (leaf 2) "+" (leaf 3)) ∧
   getCanonicalKey digit
     (Node.mk "*" 5 (Some (leaf 1)) (Some (binary (leaf 2) "+" (leaf 3)))) =
     getCanonicalKey digit (binary (leaf 2) "+" (leaf 3)) ∧
   getCanonicalKey digit
     (Node.mk "/" 5 (Some (binary (leaf 2) "+" (leaf 3))) (Some (leaf 1))) =
     getCanonicalKey digit (binary (leaf 2) "+" (leaf 3))).
Proof.
  assert (H1 : numStr digit 1 = "1") by reflexivity.
  assert (H2 : wellFormed (binary (leaf 2) "+" (leaf 3))) by (simpl; tauto).
  split; [exact H1|]. split; [exact H2|].
  exact (getCanonicalKey_identity digit (binary (leaf 2) "+" (leaf 3)) 5 H1 H2).
Defined.

(** ** The deduplication registry and the order of the results *)

Lemma marks_empty : marks ∅ ∅.
Proof. intros k. rewrite lookup_empty. simpl. set_solver. Qed.

Lemma marks_insert (seenKeys : gmap string bool) (seen : gset string)
    (key : string) :
  marks seenKeys seen → marks (<[key := true]> seenKeys) ({[key]} ∪ seen).
Proof.
  intros Hm k. destruct (decide (key = k)) as [->|Hne].
  - rewrite lookup_insert_eq. simpl. set_solver.
  - rewrite lookup_insert_ne by done. rewrite (Hm k). set_solver.
Qed.

Lemma marks_present (seenKeys : gmap string bool) (seen : gset string)
    (key : string) :
  marks seenKeys seen → key ∈ seen → marks seenKeys ({[key]} ∪ seen).
Proof. intros Hm Hk k. rewrite (Hm k). set_solver. Qed.

Section FirstOccurrences.

Context {A : Type} (key : A → string).

Lemma firstOccurrences_app (seen : gset string) (l1 l2 : list A) :
  firstOccurrences key seen (l1 ++ l2) =
    firstOccurrences key seen l1 ++
    firstOccurrences key (list_to_set (key <$> l1) ∪ seen) l2.
Proof.
  revert seen. induction l1 as [|x l1 IH]; intros seen; simpl.
  - f_equal. set_solver.
  - rewrite IH.
    replace (list_to_set (key <$> l1) ∪ ({[key x]} ∪ seen))
      with (({[key x]} ∪ list_to_set (key <$> l1)) ∪ seen : gset string)
      by set_solver.
    by destruct (decide (key x ∈ seen)).
Qed.

Lemma firstOccurrences_sublist (seen : gset string) (l : list A) :
  firstOccurrences key seen l `sublist_of` l.
Proof.
  revert seen. induction l as [|x l IH]; intros seen; simpl; [done|].
  destruct (decide (key x ∈ seen)); [apply sublist_cons | apply sublist_skip];
    apply IH.
Qed.

Lemma firstOccurrences_fresh (seen : gset string) (l : list A) (x : A) :
  x ∈ firstOccurrences key seen l → key x ∉ seen.
Proof.
  revert seen. induction l as [|y l IH]; intros seen; simpl.
  - by intros ?%elem_of_nil.
  - destruct (decide (key y ∈ seen)) as [Hin|Hout].
    + intros Hx%IH. set_solver.
    + intros [->|Hx%IH]%elem_of_cons; set_solver.
Qed.

Lemma firstOccurrences_NoDup (seen : gset string) (l : list A) :
  NoDup (key <$> firstOccurrences key seen l).
Proof.
  revert seen. induction l as [|x l IH]; intros seen; simpl.
  - apply NoDup_nil_2.
  - destruct (decide (key x ∈ seen)); [apply IH|].
    rewrite fmap_cons. apply NoDup_cons_2; [|apply IH].
    intros (y & Hy & Hin)%list_elem_of_fmap.
    apply firstOccurrences_fresh in Hin. set_solver.
Qed.

Lemma firstOccurrences_keys (seen : gset string) (l : list A) :
  list_to_set (key <$> firstOccurrences key seen l) ∪ seen =
    list_to_set (key <$> l) ∪ seen :> gset string.
Proof.
  revert seen. induction l as [|x l IH]; intros seen; [done|].
  cbn [firstOccurrences]. specialize (IH ({[key x]} ∪ seen)).
  destruct (decide (key x ∈ seen)) as [Hin|Hout];
    rewrite !fmap_cons, !list_to_set_cons;
    generalize dependent
      (list_to_set (key <$> firstOccurrences key ({[key x]} ∪ seen) l)
         : gset string);
    generalize (list_to_set (key <$> l) : gset string);
    intros S2 S1 IH; apply set_eq; intros k;
    pose proof (proj1 (set_eq _ _) IH k); set_solver.
Qed.

End FirstOccurrences.

(** ** The trees of [findSolutions] *)

Lemma calculate_applyOperator (a b v : float) (op : string) :
  calculate a b op = (v, true) → applyOperator op a b = Some v.
Proof.
  unfold calculate, applyOperator.
  repeat case_match; intros [= <-]; reflexivity.
Qed.

Ltac calculate_step :=
  match goal with
  | |- context [calculate ?a ?b ?op] =>
      let v := fresh "v" in
      let E := fresh "E" in
      destruct (calculate a b op) as [v []] eqn:E;
      [apply calculate_applyOperator in E | by constructor]
  end.

Ltac built_by_pattern :=
  simpl; do 3 calculate_step;
  match goal with
  | |- context [isApproximately24 ?v] =>
      let E := fresh "E" in
      destruct (isApproximately24 v) eqn:E; simpl; [|by constructor]
  end;
  constructor; [|constructor];
  eexists; split_and!; [reflexivity | reflexivity | | eassumption];
  simpl;
  repeat match goal with
         | H : applyOperator _ _ _ = Some _ |- _ => rewrite H; clear H; simpl
         end;
  reflexivity.

Section Patterns.

Variables (p0 p1 p2 p3 : float) (o0 o1 o2 : string).

Lemma pattern1_builtBy :
  Forall (builtBy 1 p0 p1 p2 p3 o0 o1 o2)
    (pattern1 (leaf p0) (leaf p1) (leaf p2) (leaf p3) o0 o1 o2).
Proof. unfold pattern1. built_by_pattern. Qed.

Lemma pattern2_builtBy :
  Forall (builtBy 2 p0 p1 p2 p3 o0 o1 o2)
    (pattern2 (leaf p0) (leaf p1) (leaf p2) (leaf p3) o0 o1 o2).
Proof. unfold pattern2. built_by_pattern. Qed.

Lemma pattern3_builtBy :
  Forall (builtBy 3 p0 p1 p2 p3 o0 o1 o2)
    (pattern3 (leaf p0) (leaf p1) (leaf p2) (leaf p3) o0 o1 o2).
Proof. unfold pattern3. built_by_pattern. Qed.

Lemma pattern4_builtBy :
  Forall (builtBy 4 p0 p1 p2 p3 o0 o1 o2)
    (pattern4 (leaf p0) (leaf p1) (leaf p2) (leaf p3) o0 o1 o2).
Proof. unfold pattern4. built_by_pattern. Qed.

Lemma pattern5_builtBy :
  Forall (builtBy 5 p0 p1 p2 p3 o0 o1 o2)
    (pattern5 (leaf p0) (leaf p1) (leaf p2) (leaf p3) o0 o1 o2).
Proof. unfold pattern5. built_by_pattern. Qed.

(** Every tree of [trees] has the shape of the pattern that built it, and
    holds the value of that shape. *)
Lemma taggedTrees_builtBy :
  Forall (λ kt, builtBy kt.1 p0 p1 p2 p3 o0 o1 o2 kt.2)
    (taggedTrees (leaf p0) (leaf p1) (leaf p2) (leaf p3) o0 o1 o2).
Proof.
  unfold taggedTrees. rewrite !Forall_app, !Forall_fmap.
  split_and!;
    [apply pattern1_builtBy | apply pattern2_builtBy | apply pattern3_builtBy
    | apply pattern4_builtBy | apply pattern5_builtBy].
Qed.

End Patterns.

(** The candidates are well-formed trees, at most one per pattern. *)
Lemma taggedTrees_buildTrees (a b c d : Node.t) (op0 op1 op2 : string) :
  snd <$> taggedTrees a b c d op0 op1 op2 = buildTrees a b c d op0 op1 op2.
Proof.
  unfold taggedTrees, buildTrees. rewrite !fmap_app, <- !list_fmap_compose.
  by rewrite !list_fmap_id.
Qed.

Lemma taggedTrees_length (a b c d : Node.t) (op0 op1 op2 : string) :
  (length (taggedTrees a b c d op0 op1 op2) ≤ 5)%nat.
Proof.
  unfold taggedTrees. rewrite !length_app, !length_fmap.
  unfold pattern1, pattern2, pattern3, pattern4, pattern5.
  repeat case_match; simpl; lia.
Qed.

Lemma taggedTrees_wellFormed (p0 p1 p2 p3 : float) (op0 op1 op2 : string) :
  Forall (λ kt, wellFormed kt.2)
    (taggedTrees (leaf p0) (leaf p1) (leaf p2) (leaf p3) op0 op1 op2).
Proof.
  unfold taggedTrees. rewrite !Forall_app, !Forall_fmap.
  unfold pattern1, pattern2, pattern3, pattern4, pattern5.
  repeat split; repeat case_match;
    repeat constructor.
Qed.

(** The shape numbers of the candidates of one call increase strictly. *)
Lemma taggedTrees_shapes_increase (a b c d : Node.t) (op0 op1 op2 : string) :
  StronglySorted lt (fst <$> taggedTrees a b c d op0 op1 op2).
Proof.
  unfold taggedTrees. rewrite !fmap_app, <- !list_fmap_compose.
  unfold pattern1, pattern2, pattern3, pattern4, pattern5.
  repeat case_match; simpl; repeat constructor; lia.
Qed.

Lemma generateOperations_length :
  Forall (λ ops : list string, length ops = 3%nat) generateOperations.
Proof. unfold generateOperations, operations. simpl. repeat constructor. Qed.

Lemma generatePermutations_length (nums : list float) :
  Forall (λ perm, length perm = length nums) (generatePermutations nums).
Proof.
  apply Forall_forall. intros perm Hperm.
  by apply generatePermutationsFuel_Permutation, Permutation_length in Hperm.
Qed.

Lemma taggedTrees_shape_bounds (a b c d : Node.t) (op0 op1 op2 : string) :
  Forall (λ kt : nat * Node.t, (1 ≤ kt.1 ≤ 5)%nat)
    (taggedTrees a b c d op0 op1 op2).
Proof.
  unfold taggedTrees. rewrite !Forall_app, !Forall_fmap.
  split_and!; apply Forall_forall; intros t _; simpl; lia.
Qed.

(** In a strictly increasing list of numbers that are at least [m], the
    element at position [j] is at least [m + j]. *)
Lemma increasing_position (l : list nat) :
  StronglySorted lt l →
  ∀ m j k, Forall (λ x, (m ≤ x)%nat) l → l !! j = Some k → (m + j ≤ k)%nat.
Proof.
  induction 1 as [|x l Hsorted IH Hx]; intros m j k Hm Hj.
  - by rewrite lookup_nil in Hj.
  - apply Forall_cons in Hm as [Hmx Hm].
    destruct j as [|j]; simpl in Hj.
    + injection Hj as <-. lia.
    + assert (S m + j ≤ k)%nat; [|lia].
      apply IH; [|done].
      eapply Forall_impl; [exact Hx|]. simpl. lia.
Qed.

Lemma indexFrom_elem (perm : list float) (ops : list string)
    (tagged : list (nat * Node.t)) (i : nat) (c : Candidate) :
  c ∈ indexFrom perm ops i tagged →
  ∃ j k t, tagged !! j = Some (k, t) ∧ c = mkCandidate perm ops k (i + j) t.
Proof.
  revert i. induction tagged as [|[k t] tagged IH]; intros i Hc; simpl in Hc.
  - by apply elem_of_nil in Hc.
  - apply elem_of_cons in Hc as [->|Hc].
    + exists 0%nat, k, t. by rewrite Nat.add_0_r.
    + destruct (IH _ Hc) as (j & k' & t' & Hj & ->).
      exists (S j), k', t'. split; [done|]. f_equal. lia.
Qed.

(** Where a candidate of a search comes from: an ordering of the operands,
    an operator triple, and a pattern whose number is at least its index in
    [trees] plus one. *)
Lemma discovered_inv (nums : list float) (c : Candidate) :
  length nums = 4%nat → c ∈ discovered nums →
  ∃ p0 p1 p2 p3 o0 o1 o2,
    cand_perm c = [p0; p1; p2; p3] ∧
    cand_perm c ∈ generatePermutations nums ∧
    cand_ops c = [o0; o1; o2] ∧
    cand_ops c ∈ generateOperations ∧
    (cand_index c + 1 ≤ cand_shape c ≤ 5)%nat ∧
    builtBy (cand_shape c) p0 p1 p2 p3 o0 o1 o2 (cand_tree c).
Proof.
  intros Hlen. unfold discovered.
  intros (perm & (ops & Hc & Hops)%list_elem_of_bind & Hperm)%list_elem_of_bind.
  pose proof (generatePermutationsFuel_Permutation _ _ _ Hperm) as Hp.
  apply Permutation_length in Hp. rewrite Hlen in Hp.
  destruct perm as [|p0 [|p1 [|p2 [|p3 [|]]]]]; try discriminate.
  assert (Ho : length ops = 3%nat).
  { by apply (proj1 (Forall_forall _ _) generateOperations_length). }
  destruct ops as [|o0 [|o1 [|o2 [|]]]]; try discriminate.
  unfold candidatesOf in Hc. simpl in Hc.
  apply indexFrom_elem in Hc as (j & k & t & Hj & ->). simpl.
  exists p0, p1, p2, p3, o0, o1, o2. split_and!; try done.
  - enough (1 + j ≤ k)%nat by lia.
    apply (increasing_position
             (fst <$> taggedTrees (leaf p0) (leaf p1) (leaf p2) (leaf p3)
                        o0 o1 o2)).
    + apply taggedTrees_shapes_increase.
    + apply Forall_fmap.
      eapply Forall_impl; [apply taggedTrees_shape_bounds|]. simpl. lia.
    + by rewrite list_lookup_fmap, Hj.
  - pose proof (taggedTrees_shape_bounds
                  (leaf p0) (leaf p1) (leaf p2) (leaf p3) o0 o1 o2) as Hb.
    apply (Forall_lookup_1 _ _ _ _ Hb) in Hj. simpl in Hj. lia.
  - pose proof (taggedTrees_builtBy p0 p1 p2 p3 o0 o1 o2) as Hb.
    by apply (Forall_lookup_1 _ _ _ _ Hb) in Hj.
Qed.

Lemma string_app_nil (s : string) : "" +:+ s = s.
Proof. reflexivity. Qed.

Lemma string_app_nil_r (s : string) : s +:+ "" = s.
Proof. induction s as [|c s IH]; [done|]. by rewrite <- IH at 2. Qed.

Lemma string_app_cons (c : ascii) (s1 s2 : string) :
  String c s1 +:+ s2 = String c (s1 +:+ s2).
Proof. reflexivity. Qed.

Lemma string_app_assoc (s1 s2 s3 : string) :
  (s1 +:+ s2) +:+ s3 = s1 +:+ (s2 +:+ s3).
Proof.
  induction s1 as [|c s1 IH]; [done|]. by rewrite !string_app_cons, IH.
Qed.

(** What [Sprintf] makes of template [k] is the text of shape [k] over the
    operands and operators it is given, in the order it is given them. *)
Lemma Sprintf_formulaAt_shape (FormatFixed0 : float → string) (i : nat)
    (p0 p1 p2 p3 : float) (o0 o1 o2 : string) :
  (i < 5)%nat →
  Sprintf FormatFixed0 (formulaAt (i + 1))
    [ArgFloat p0; ArgString o0; ArgFloat p1; ArgString o1;
     ArgFloat p2; ArgString o2; ArgFloat p3] =
  render FormatFixed0 <$> shape (i + 1) p0 p1 p2 p3 o0 o1 o2.
Proof.
  intros Hi.
  do 5 (destruct i as [|i];
        [match goal with
         | |- context [formulaAt ?k] =>
             let text := eval vm_compute in (formulaAt k) in
             change (formulaAt k) with text
         end;
         simpl; f_equal;
         repeat first [ rewrite string_app_assoc
                      | rewrite string_app_cons
                      | rewrite string_app_nil
                      | rewrite string_app_nil_r ];
         reflexivity|]).
  lia.
Qed.

(** The text printed for the tree at index [i] of [trees] is the text of
    shape [i + 1]: the operands and the operators stand in the order of
    [perm] and [ops], and the parentheses are those of the template that the
    index selects. *)
Lemma printed_shape (FormatFixed0 : float → string) (i : nat)
    (p0 p1 p2 p3 : float) (o0 o1 o2 : string) :
  (i < 5)%nat →
  Some (printed FormatFixed0 [p0; p1; p2; p3] [o0; o1; o2] i) =
    render FormatFixed0 <$> shape (i + 1) p0 p1 p2 p3 o0 o1 o2.
Proof.
  intros Hi. unfold printed. simpl.
  rewrite Sprintf_formulaAt_shape by done.
  do 5 (destruct i as [|i]; [done|]). lia.
Qed.

Section SearchProperties.

Variable FormatFloat : float -> string.
Variable FormatFixed0 : float -> string.

Local Abbreviation key := (keyOf FormatFloat).
Local Abbreviation solution := (solutionOf FormatFixed0).

(** The five templates take the seven operands [findSolutions] passes. *)
Lemma Sprintf_formulaAt (i : nat) (p0 p1 p2 p3 : float) (o0 o1 o2 : string) :
  (i < 5)%nat →
  is_Some
    (Sprintf FormatFixed0 (formulaAt (i + 1))
       [ArgFloat p0; ArgString o0; ArgFloat p1; ArgString o1;
        ArgFloat p2; ArgString o2; ArgFloat p3]).
Proof.
  intros Hi.
  do 5 (destruct i as [|i]; [by eexists|]). lia.
Qed.

Lemma collectLoop_firstOccurrences
    (perm : list float) (ops : list string)
    (p0 p1 p2 p3 : float) (o0 o1 o2 : string) :
  perm !! 0%nat = Some p0 → perm !! 1%nat = Some p1 →
  perm !! 2%nat = Some p2 → perm !! 3%nat = Some p3 →
  ops !! 0%nat = Some o0 → ops !! 1%nat = Some o1 → ops !! 2%nat = Some o2 →
  ∀ (tagged : list (nat * Node.t)) (i : nat)
    (seenKeys : gmap string bool) (seen : gset string)
    (results : list Expression.t),
    Forall (λ kt, wellFormed kt.2) tagged →
    (i + length tagged ≤ 5)%nat →
    marks seenKeys seen →
    ∃ seenKeys',
      collectLoop FormatFloat FormatFixed0 p0 p1 p2 p3 o0 o1 o2
        i (snd <$> tagged) seenKeys results =
        Some (results ++
                (solution <$>
                   firstOccurrences key seen (indexFrom perm ops i tagged)),
              seenKeys') ∧
      marks seenKeys'
        (list_to_set (key <$> indexFrom perm ops i tagged) ∪ seen).
Proof.
  intros Hp0 Hp1 Hp2 Hp3 Ho0 Ho1 Ho2.
  induction tagged as [|[k tree] tagged IH];
    intros i seenKeys seen results Hwf Hlen Hmarks.
  - exists seenKeys. simpl. split; [by rewrite app_nil_r|].
    intros k. rewrite (Hmarks k). set_solver.
  - apply Forall_cons in Hwf as [Hwf Hwfs]. simpl in Hwf, Hlen.
    destruct (getCanonicalKey_total FormatFloat tree Hwf) as [[ck Hck] _].
    assert (Hkey : key (mkCandidate perm ops k i tree) = ck).
    { unfold keyOf. simpl. by rewrite Hck. }
    assert (Hset :
      list_to_set (key <$> indexFrom perm ops i ((k, tree) :: tagged)) ∪ seen
      = list_to_set (key <$> indexFrom perm ops (S i) tagged)
          ∪ ({[ck]} ∪ seen) :> gset string).
    { simpl. rewrite Hkey. set_solver. }
    rewrite Hset, fmap_cons.
    cbn [snd collectLoop indexFrom firstOccurrences].
    rewrite Hck, Hkey. cbn [mbind option_bind].
    destruct (decide (ck ∈ seen)) as [Hin|Hout].
    + apply (Hmarks ck) in Hin as Hseen. rewrite Hseen. cbn [negb].
      destruct (IH (S i) seenKeys ({[ck]} ∪ seen) results)
        as (seenKeys' & Hloop & Hmarks'); [done | lia | |].
      { by apply marks_present. }
      by exists seenKeys'.
    + assert (Hseen : default false (seenKeys !! ck) = false).
      { destruct (default false (seenKeys !! ck)) eqn:E; [|done].
        by apply (Hmarks ck) in E. }
      rewrite Hseen. cbn [negb].
      destruct (Sprintf_formulaAt i p0 p1 p2 p3 o0 o1 o2) as [text Htext];
        [lia|].
      rewrite Htext. cbn [mbind option_bind].
      destruct (IH (S i) (<[ck := true]> seenKeys) ({[ck]} ∪ seen)
                  (results ++ [Expression.mk text (Node.value tree)]))
        as (seenKeys' & Hloop & Hmarks'); [done | lia | |].
      { by apply marks_insert. }
      exists seenKeys'. split; [|done].
      rewrite Hloop. f_equal. f_equal.
      rewrite <- app_assoc. f_equal. simpl. f_equal.
      unfold solutionOf, printed. simpl.
      by rewrite Hp0, Hp1, Hp2, Hp3, Ho0, Ho1, Ho2; simpl; rewrite Htext.
Qed.

(** One call of [findSolutions] records the first occurrences among its own
    candidates, given the keys already present in [seenKeys]. *)
Lemma findSolutions_firstOccurrences
    (perm : list float) (ops : list string)
    (seenKeys : gmap string bool) (seen : gset string) :
  length perm = 4%nat → length ops = 3%nat → marks seenKeys seen →
  ∃ seenKeys',
    findSolutions FormatFloat FormatFixed0 perm ops seenKeys =
      Some (solution <$> firstOccurrences key seen (candidatesOf perm ops),
            seenKeys') ∧
    marks seenKeys' (list_to_set (key <$> candidatesOf perm ops) ∪ seen).
Proof.
  intros Hperm Hops Hmarks.
  destruct perm as [|p0 [|p1 [|p2 [|p3 [|]]]]]; try discriminate.
  destruct ops as [|o0 [|o1 [|o2 [|]]]]; try discriminate.
  unfold findSolutions, candidatesOf. simpl.
  rewrite <- taggedTrees_buildTrees.
  destruct (collectLoop_firstOccurrences
              [p0; p1; p2; p3] [o0; o1; o2] p0 p1 p2 p3 o0 o1 o2
              eq_refl eq_refl eq_refl eq_refl eq_refl eq_refl eq_refl
              (taggedTrees (leaf p0) (leaf p1) (leaf p2) (leaf p3) o0 o1 o2)
              0 seenKeys seen [])
    as (seenKeys' & Hloop & Hmarks').
  - apply taggedTrees_wellFormed.
  - pose proof (taggedTrees_length
                  (leaf p0) (leaf p1) (leaf p2) (leaf p3) o0 o1 o2). lia.
  - done.
  - exists seenKeys'. by rewrite Hloop.
Qed.

Lemma searchOps_firstOccurrences (perm : list float) :
  length perm = 4%nat →
  ∀ (operationCombos : list (list string))
    (unique : list Expression.t)
    (seenKeys : gmap string bool) (seen : gset string),
    Forall (λ ops, length ops = 3%nat) operationCombos →
    marks seenKeys seen →
    ∃ seenKeys',
      searchOps FormatFloat FormatFixed0 perm operationCombos unique seenKeys =
        Some (unique ++
                (solution <$>
                   firstOccurrences key seen
                     (operationCombos ≫= candidatesOf perm)),
              seenKeys') ∧
      marks seenKeys'
        (list_to_set (key <$> (operationCombos ≫= candidatesOf perm)) ∪ seen).
Proof.
  intros Hperm.
  induction operationCombos as [|ops rest IH];
    intros unique seenKeys seen Hops Hmarks.
  - exists seenKeys. simpl. split; [by rewrite app_nil_r|].
    intros k. rewrite (Hmarks k). set_solver.
  - apply Forall_cons in Hops as [Hops Hrest].
    destruct (findSolutions_firstOccurrences perm ops seenKeys seen)
      as (seenKeys1 & Hfind & Hmarks1); [done..|].
    destruct (IH (unique ++
                    (solution <$>
                       firstOccurrences key seen (candidatesOf perm ops)))
                 seenKeys1 _ Hrest Hmarks1)
      as (seenKeys' & Hsearch & Hmarks').
    exists seenKeys'. cbn [searchOps]. rewrite Hfind. cbn [mbind option_bind].
    rewrite Hsearch, bind_cons, firstOccurrences_app, fmap_app, app_assoc.
    split; [done|].
    by replace (list_to_set
                  (key <$> candidatesOf perm ops ++ rest ≫= candidatesOf perm)
                  ∪ seen)
      with (list_to_set (key <$> rest ≫= candidatesOf perm)
              ∪ (list_to_set (key <$> candidatesOf perm ops) ∪ seen)
            : gset string)
      by (rewrite fmap_app; set_solver).
Qed.

Lemma searchPerms_firstOccurrences (operationCombos : list (list string)) :
  Forall (λ ops, length ops = 3%nat) operationCombos →
  ∀ (perms : list (list float))
    (unique : list Expression.t)
    (seenKeys : gmap string bool) (seen : gset string),
    Forall (λ perm, length perm = 4%nat) perms →
    marks seenKeys seen →
    ∃ seenKeys',
      searchPerms FormatFloat FormatFixed0
        perms operationCombos unique seenKeys =
        Some (unique ++
                (solution <$>
                   firstOccurrences key seen
                     (perms ≫= (λ perm,
                        operationCombos ≫= candidatesOf perm))),
              seenKeys') ∧
      marks seenKeys'
        (list_to_set
           (key <$> (perms ≫= (λ perm,
                       operationCombos ≫= candidatesOf perm))) ∪ seen).
Proof.
  intros Hops.
  induction perms as [|perm rest IH];
    intros unique seenKeys seen Hperms Hmarks.
  - exists seenKeys. simpl. split; [by rewrite app_nil_r|].
    intros k. rewrite (Hmarks k). set_solver.
  - apply Forall_cons in Hperms as [Hperm Hrest].
    destruct (searchOps_firstOccurrences perm Hperm operationCombos
                unique seenKeys seen Hops Hmarks)
      as (seenKeys1 & Hinner & Hmarks1).
    destruct (IH (unique ++
                    (solution <$>
                       firstOccurrences key seen
                         (operationCombos ≫= candidatesOf perm)))
                 seenKeys1 _ Hrest Hmarks1)
      as (seenKeys' & Hsearch & Hmarks').
    exists seenKeys'. cbn [searchPerms]. rewrite Hinner.
    cbn [mbind option_bind].
    rewrite Hsearch, bind_cons, firstOccurrences_app, fmap_app, app_assoc.
    split; [done|].
    set (here := operationCombos ≫= candidatesOf perm) in *.
    set (later := rest ≫= _) in *.
    by replace (list_to_set (key <$> here ++ later) ∪ seen)
      with (list_to_set (key <$> later) ∪ (list_to_set (key <$> here) ∪ seen)
            : gset string)
      by (rewrite fmap_app; set_solver).
Qed.

(** The search returns the Solutions of the first occurrences of the keys,
    in discovery order. *)
Lemma uniqueSolutions_firstOccurrences (nums : list float) :
  length nums = 4%nat →
  uniqueSolutions FormatFloat FormatFixed0 nums =
    Some (solution <$> firstOccurrences key ∅ (discovered nums)).
Proof.
  intros Hlen. unfold uniqueSolutions, discovered.
  destruct (searchPerms_firstOccurrences generateOperations
              generateOperations_length (generatePermutations nums)
              [] ∅ ∅)
    as (seenKeys' & Hsearch & _).
  - rewrite <- Hlen. apply generatePermutations_length.
  - apply marks_empty.
  - by rewrite Hsearch.
Qed.

(** Every candidate of a search has a well-formed tree, hence a key. *)
Lemma candidates_wellFormed (nums : list float) (c : Candidate) :
  c ∈ discovered nums → wellFormed (cand_tree c).
Proof.
  unfold discovered.
  intros (perm & (ops & Hc & _)%list_elem_of_bind & _)%list_elem_of_bind.
  unfold candidatesOf in Hc.
  destruct (perm !! 0%nat) as [p0|]; [|by apply elem_of_nil in Hc].
  destruct (perm !! 1%nat) as [p1|]; [|by apply elem_of_nil in Hc].
  destruct (perm !! 2%nat) as [p2|]; [|by apply elem_of_nil in Hc].
  destruct (perm !! 3%nat) as [p3|]; [|by apply elem_of_nil in Hc].
  destruct (ops !! 0%nat) as [o0|]; [|by apply elem_of_nil in Hc].
  destruct (ops !! 1%nat) as [o1|]; [|by apply elem_of_nil in Hc].
  destruct (ops !! 2%nat) as [o2|]; [|by apply elem_of_nil in Hc].
  simpl in Hc.
  pose proof (taggedTrees_wellFormed p0 p1 p2 p3 o0 o1 o2) as Hwf.
  revert Hc Hwf. generalize 0%nat.
  induction (taggedTrees _ _ _ _ _ _ _) as [|[k tree] tagged IH];
    intros i Hc Hwf; simpl in Hc.
  - by apply elem_of_nil in Hc.
  - apply Forall_cons in Hwf as [Hwf Hwfs].
    apply elem_of_cons in Hc as [->|Hc]; [done | by eapply IH].
Qed.

Lemma indexFrom_shapes (perm : list float) (ops : list string)
    (tagged : list (nat * Node.t)) (i : nat) :
  cand_shape <$> indexFrom perm ops i tagged = fst <$> tagged.
Proof.
  revert i. induction tagged as [|[k tree] tagged IH]; intros i; simpl;
    [done | by rewrite IH].
Qed.

Lemma candidatesOf_shapes_increase (perm : list float) (ops : list string) :
  StronglySorted lt (cand_shape <$> candidatesOf perm ops).
Proof.
  unfold candidatesOf.
  destruct (perm !! 0%nat) as [p0|]; [|constructor].
  destruct (perm !! 1%nat) as [p1|]; [|constructor].
  destruct (perm !! 2%nat) as [p2|]; [|constructor].
  destruct (perm !! 3%nat) as [p3|]; [|constructor].
  destruct (ops !! 0%nat) as [o0|]; [|constructor].
  destruct (ops !! 1%nat) as [o1|]; [|constructor].
  destruct (ops !! 2%nat) as [o2|]; [|constructor].
  simpl. rewrite indexFrom_shapes. apply taggedTrees_shapes_increase.
Qed.

Lemma accepted_discovered (nums : list float) (c : Candidate) :
  c ∈ firstOccurrences key ∅ (discovered nums) → c ∈ discovered nums.
Proof.
  intros Hc. eapply elem_of_sublist; [done | apply firstOccurrences_sublist].
Qed.

(** X1. A search over four operands never panics: it returns a result
    list. *)
Theorem uniqueSolutions_returns (nums : list float) :
  length nums = 4%nat →
  is_Some (uniqueSolutions FormatFloat FormatFixed0 nums).
Proof.
  intros Hlen. rewrite uniqueSolutions_firstOccurrences by done. by eexists.
Qed.

(** X2. The value recorded in every Solution is within 1e-9 of 24. *)
Theorem uniqueSolutions_values_near_24 (nums : list float) :
  length nums = 4%nat →
  ∃ results,
    uniqueSolutions FormatFloat FormatFixed0 nums = Some results ∧
    Forall (λ e, isApproximately24 (Expression.value e) = true) results.
Proof.
  intros Hlen. eexists. split; [by apply uniqueSolutions_firstOccurrences|].
  apply Forall_fmap, Forall_forall. intros c Hc%accepted_discovered.
  destruct (discovered_inv nums c Hlen Hc)
    as (p0 & p1 & p2 & p3 & o0 & o1 & o2 & _ & _ & _ & _ & _ & Hbuilt).
  by destruct Hbuilt as (f & _ & _ & _ & Hnear).
Qed.

(** X3. Every formula in the result list is the text of one of the five
    shapes over a rearrangement of the four input operands and a triple of
    the operators +, -, *, /: its numeric literals are the input operands,
    each used once. *)
Theorem uniqueSolutions_formula_operands (nums : list float) :
  length nums = 4%nat →
  ∃ results,
    uniqueSolutions FormatFloat FormatFixed0 nums = Some results ∧
    Forall
      (λ e, ∃ p0 p1 p2 p3 o0 o1 o2 k f,
         [p0; p1; p2; p3] ≡ₚ nums ∧
         [o0; o1; o2] ∈ generateOperations ∧
         (1 ≤ k ≤ 5)%nat ∧
         shape k p0 p1 p2 p3 o0 o1 o2 = Some f ∧
         Expression.formula e = render FormatFixed0 f)
      results.
Proof.
  intros Hlen. eexists. split; [by apply uniqueSolutions_firstOccurrences|].
  apply Forall_fmap, Forall_forall. intros c Hc%accepted_discovered.
  destruct (discovered_inv nums c Hlen Hc)
    as (p0 & p1 & p2 & p3 & o0 & o1 & o2 &
        Hperm & Hin & Hops & Hopsin & Hindex & _).
  assert (Hi : (cand_index c < 5)%nat) by lia.
  pose proof (printed_shape FormatFixed0 _ p0 p1 p2 p3 o0 o1 o2 Hi) as Htext.
  destruct (shape (cand_index c + 1) p0 p1 p2 p3 o0 o1 o2) as [f|] eqn:Hshape;
    [|discriminate].
  injection Htext as Htext.
  exists p0, p1, p2, p3, o0, o1, o2, (cand_index c + 1)%nat, f.
  split_and!; try done; try lia.
  - rewrite <- Hperm.
    by apply generatePermutationsFuel_Permutation in Hin.
  - by rewrite <- Hops.
  - unfold compose, solutionOf. simpl. by rewrite Hperm, Hops.
Qed.

(** X4. Anatomy of a Solution.  For every accepted candidate, the formula
    text is that of the shape numbered by the index of its tree in [trees]
    plus one, while its tree and the recorded value are those of the shape
    that built it, whose value is within 1e-9 of 24.  The two shapes are the
    same exactly when every earlier pattern also produced a tree; then the
    formula, evaluated as printed, gives the recorded value. *)
Theorem accepted_solution_anatomy (nums : list float) :
  length nums = 4%nat →
  Forall
    (λ c, ∃ p0 p1 p2 p3 o0 o1 o2 printedShape builtShape,
       cand_perm c = [p0; p1; p2; p3] ∧ cand_ops c = [o0; o1; o2] ∧
       (cand_index c + 1 ≤ cand_shape c ≤ 5)%nat ∧
       shape (cand_index c + 1) p0 p1 p2 p3 o0 o1 o2 = Some printedShape ∧
       Expression.formula (solution c) = render FormatFixed0 printedShape ∧
       shape (cand_shape c) p0 p1 p2 p3 o0 o1 o2 = Some builtShape ∧
       treeFormula (cand_tree c) = Some builtShape ∧
       evalFormula builtShape = Some (Expression.value (solution c)) ∧
       isApproximately24 (Expression.value (solution c)) = true ∧
       (cand_shape c = (cand_index c + 1)%nat → printedShape = builtShape))
    (firstOccurrences key ∅ (discovered nums)).
Proof.
  intros Hlen. apply Forall_forall. intros c Hc%accepted_discovered.
  destruct (discovered_inv nums c Hlen Hc)
    as (p0 & p1 & p2 & p3 & o0 & o1 & o2 &
        Hperm & _ & Hops & _ & Hindex & g & Hg & Htree & Heval & Hnear).
  assert (Hi : (cand_index c < 5)%nat) by lia.
  pose proof (printed_shape FormatFixed0 _ p0 p1 p2 p3 o0 o1 o2 Hi) as Htext.
  destruct (shape (cand_index c + 1) p0 p1 p2 p3 o0 o1 o2) as [f|] eqn:Hshape;
    [|discriminate].
  injection Htext as Htext.
  exists p0, p1, p2, p3, o0, o1, o2, f, g.
  split_and!; try done; try lia.
  - unfold solutionOf. simpl. by rewrite Hperm, Hops.
  - intros Hsame. rewrite Hsame in Hg. congruence.
Qed.

(** C8. The result list is the list of the Solutions of those candidates
    whose key was not met earlier, in discovery order: orderings outermost
    in the order of [generatePermutations], the 64 operator triples next in
    the order of [generateOperations], and within one call the candidates by
    increasing pattern number.  It is an order-preserving selection from the
    traversal, so a Solution met earlier precedes one met later. *)
Theorem uniqueSolutions_discovery_order (nums : list float) :
  length nums = 4%nat →
  uniqueSolutions FormatFloat FormatFixed0 nums =
    Some (solution <$> firstOccurrences key ∅ (discovered nums)) ∧
  firstOccurrences key ∅ (discovered nums) `sublist_of` discovered nums ∧
  discovered nums =
    (generatePermutations nums ≫= (λ perm,
       generateOperations ≫= (λ ops, candidatesOf perm ops))) ∧
  length generateOperations = 64%nat ∧
  (∀ perm ops, StronglySorted lt (cand_shape <$> candidatesOf perm ops)).
Proof.
  intros Hlen. split_and!.
  - by apply uniqueSolutions_firstOccurrences.
  - apply firstOccurrences_sublist.
  - reflexivity.
  - reflexivity.
  - apply candidatesOf_shapes_increase.
Qed.

(** C3. The Solutions of the result list are those of the candidates
    [accepted], one Solution per candidate; the canonical keys of the trees
    of these candidates are pairwise distinct, and they are exactly the keys
    that [seenKeys] marks when the search ends.  The registry is the one map
    threaded through every ordering, operator triple and pattern. *)
Theorem uniqueSolutions_keys_distinct (nums : list float) :
  length nums = 4%nat →
  ∃ (accepted : list Candidate) (keys : list string)
    (seenKeys : gmap string bool),
    searchPerms FormatFloat FormatFixed0
      (generatePermutations nums) generateOperations [] ∅ =
      Some (solution <$> accepted, seenKeys) ∧
    uniqueSolutions FormatFloat FormatFixed0 nums =
      Some (solution <$> accepted) ∧
    accepted = firstOccurrences key ∅ (discovered nums) ∧
    Forall2 (λ c k, getCanonicalKey FormatFloat (cand_tree c) = Some k)
      accepted keys ∧
    NoDup keys ∧
    marks seenKeys (list_to_set keys).
Proof.
  intros Hlen.
  destruct (searchPerms_firstOccurrences generateOperations
              generateOperations_length (generatePermutations nums)
              [] ∅ ∅)
    as (seenKeys & Hsearch & Hmarks).
  { rewrite <- Hlen. apply generatePermutations_length. }
  { apply marks_empty. }
  fold (discovered nums) in Hsearch, Hmarks. simpl in Hsearch.
  exists (firstOccurrences key ∅ (discovered nums)),
    (key <$> firstOccurrences key ∅ (discovered nums)), seenKeys.
  split_and!.
  - done.
  - unfold uniqueSolutions. by rewrite Hsearch.
  - done.
  - apply Forall2_fmap_r, Forall_Forall2_diag, Forall_forall.
    intros c Hc.
    assert (Hd : c ∈ discovered nums).
    { eapply elem_of_sublist; [done | apply firstOccurrences_sublist]. }
    apply candidates_wellFormed in Hd.
    destruct (getCanonicalKey_total FormatFloat _ Hd) as [[k Hk] _].
    unfold compose, keyOf. by rewrite !Hk.
  - apply firstOccurrences_NoDup.
  - intros k. rewrite (Hmarks k).
    pose proof (firstOccurrences_keys key ∅ (discovered nums)) as Hkeys.
    rewrite !(right_id_L ∅ (∪)) in Hkeys. by rewrite (right_id_L ∅ (∪)), Hkeys.
Qed.

End SearchProperties.

Lemma uniqueSolutions_discovery_order_witness :
  length [1; 2; 3; 4]%float = 4%nat ∧
  (uniqueSolutions digit digit [1; 2; 3; 4]%float =
     Some (solutionOf digit <$>
             firstOccurrences (keyOf digit) ∅ (discovered [1; 2; 3; 4]%float)) ∧
   firstOccurrences (keyOf digit) ∅ (discovered [1; 2; 3; 4]%float)
     `sublist_of` discovered [1; 2; 3; 4]%float ∧
   discovered [1; 2; 3; 4]%float =
     (generatePermutations [1; 2; 3; 4]%float ≫= (λ perm,
        generateOperations ≫= (λ ops, candidatesOf perm ops))) ∧
   length generateOperations = 64%nat ∧
   (∀ perm ops, StronglySorted lt (cand_shape <$> candidatesOf perm ops))).
Proof.
  split; [reflexivity|].
  apply (uniqueSolutions_discovery_order digit digit [1; 2; 3; 4]%float).
  reflexivity.
Defined.

Lemma uniqueSolutions_keys_distinct_witness :
  length [3; 3; 8; 8]%float = 4%nat ∧
  ∃ (accepted : list Candidate) (keys : list string)
    (seenKeys : gmap string bool),
    searchPerms digit digit
      (generatePermutations [3; 3; 8; 8]%float) generateOperations [] ∅ =
      Some (solutionOf digit <$> accepted, seenKeys) ∧
    uniqueSolutions digit digit [3; 3; 8; 8]%float =
      Some (solutionOf digit <$> accepted) ∧
    accepted =
      firstOccurrences (keyOf digit) ∅ (discovered [3; 3; 8; 8]%float) ∧
    Forall2 (λ c k, getCanonicalKey digit (cand_tree c) = Some k)
      accepted keys ∧
    NoDup keys ∧
    marks seenKeys (list_to_set keys).
Proof.
  split; [reflexivity|].
  apply (uniqueSolutions_keys_distinct digit digit [3; 3; 8; 8]%float).
  reflexivity.
Defined.

Lemma uniqueSolutions_returns_witness :
  length [3; 3; 8; 8]%float = 4%nat ∧
  is_Some (uniqueSolutions digit digit [3; 3; 8; 8]%float).
Proof.
  split; [reflexivity|].
  apply (uniqueSolutions_returns digit digit [3; 3; 8; 8]%float). reflexivity.
Defined.

Lemma uniqueSolutions_values_near_24_witness :
  length [1; 2; 3; 4]%float = 4%nat ∧
  ∃ results,
    uniqueSolutions digit digit [1; 2; 3; 4]%float = Some results ∧
    Forall (λ e, isApproximately24 (Expression.value e) = true) results.
Proof.
  split; [reflexivity|].
  apply (uniqueSolutions_values_near_24 digit digit [1; 2; 3; 4]%float).
  reflexivity.
Defined.

Lemma uniqueSolutions_formula_operands_witness :
  length [1; 2; 3; 4]%float = 4%nat ∧
  ∃ results,
    uniqueSolutions digit digit [1; 2; 3; 4]%float = Some results ∧
    Forall
      (λ e, ∃ p0 p1 p2 p3 o0 o1 o2 k f,
         [p0; p1; p2; p3] ≡ₚ [1; 2; 3; 4]%float ∧
         [o0; o1; o2] ∈ generateOperations ∧
         (1 ≤ k ≤ 5)%nat ∧
         shape k p0 p1 p2 p3 o0 o1 o2 = Some f ∧
         Expression.formula e = render digit f)
      results.
Proof.
  split; [reflexivity|].
  apply (uniqueSolutions_formula_operands digit digit [1; 2; 3; 4]%float).
  reflexivity.
Defined.

Lemma accepted_solution_anatomy_witness :
  length [3; 3; 8; 8]%float = 4%nat ∧
  Forall
    (λ c, ∃ p0 p1 p2 p3 o0 o1 o2 printedShape builtShape,
       cand_perm c = [p0; p1; p2; p3] ∧ cand_ops c = [o0; o1; o2] ∧
       (cand_index c + 1 ≤ cand_shape c ≤ 5)%nat ∧
       shape (cand_index c + 1) p0 p1 p2 p3 o0 o1 o2 = Some printedShape ∧
       Expression.formula (solutionOf digit c) = render digit printedShape ∧
       shape (cand_shape c) p0 p1 p2 p3 o0 o1 o2 = Some builtShape ∧
       treeFormula (cand_tree c) = Some builtShape ∧
       evalFormula builtShape = Some (Expression.value (solutionOf digit c)) ∧
       isApproximately24 (Expression.value (solutionOf digit c)) = true ∧
       (cand_shape c = (cand_index c + 1)%nat → printedShape = builtShape))
    (firstOccurrences (keyOf digit) ∅ (discovered [3; 3; 8; 8]%float)).
Proof.
  split; [reflexivity|].
  apply (accepted_solution_anatomy digit digit [3; 3; 8; 8]%float).
  reflexivity.
Defined.

(** X5. [generateOperations] lists the 64 ordered triples over the four
    operators, each once. *)
Theorem generateOperations_all :
  length generateOperations = 64%nat ∧
  NoDup generateOperations ∧
  Forall
    (λ op1, Forall
       (λ op2, Forall (λ op3, [op1; op2; op3] ∈ generateOperations) operations)
       operations)
    operations ∧
  Forall (λ ops, ∃ op1 op2 op3,
            ops = [op1; op2; op3] ∧
            op1 ∈ operations ∧ op2 ∈ operations ∧ op3 ∈ operations)
    generateOperations.
Proof.
  split_and!.
  - reflexivity.
  - by apply (bool_decide_unpack _); vm_compute.
  - by apply (bool_decide_unpack _); vm_compute.
  - unfold generateOperations. apply Forall_bind, Forall_forall.
    intros op1 H1. apply Forall_bind, Forall_forall.
    intros op2 H2. apply Forall_fmap, Forall_forall.
    intros op3 H3. by exists op1, op2, op3.
Qed.

(** X6. [getCanonicalKey] has no failure mode on a well-formed tree. *)
Theorem getCanonicalKey_returns (FormatFloat : float → string)
    (node : Node.t) :
  wellFormed node → is_Some (getCanonicalKey FormatFloat node).
Proof. intros Hwf. by apply getCanonicalKey_total. Qed.

Lemma getCanonicalKey_returns_witness :
  wellFormed (groupLeft "*" 1 2 3) ∧
  is_Some (getCanonicalKey digit (groupLeft "*" 1 2 3)).
Proof.
  assert (H : wellFormed (groupLeft "*" 1 2 3)) by (simpl; tauto).
  split; [exact H | exact (getCanonicalKey_returns digit _ H)].
Defined.

(** ** Concrete searches *)

(** C9. On the operands (1, 1, 1, 1) the search accepts no candidate: the
    result list is empty, whatever the two formatting routines print. *)
Theorem uniqueSolutions_1111_empty (FormatFloat FormatFixed0 : float -> string) :
  uniqueSolutions FormatFloat FormatFixed0 [1; 1; 1; 1]%float = Some [].
Proof. vm_compute. reflexivity. Qed.

(** C1 (the code departs from the claim). For the ordering (8, 3, 8, 3) and
    the operators (/, -, /) only pattern 4, [8 / (3 - (8 / 3))], reaches 24.
    Its tree is the first and only element of [trees], so the loop over
    [trees] prints it with [formulas[0+1]], the template of pattern 1: the
    Solution reads ((8 / 3) - 8) / 3. *)
Theorem findSolutions_formula_of_wrong_shape :
  let perm := [8; 3; 8; 3]%float in
  let ops := ["/"; "-"; "/"] in
  cand_shape <$> candidatesOf perm ops = [4%nat] ∧
  cand_index <$> candidatesOf perm ops = [0%nat] ∧
  fst <$> findSolutions digit digit perm ops ∅ =
    Some [Expression.mk "((8 / 3) - 8) / 3" 23.999999999999989%float] ∧
  render digit <$> shape 1 8 3 8 3 "/" "-" "/" = Some "((8 / 3) - 8) / 3" ∧
  render digit <$> shape 4 8 3 8 3 "/" "-" "/" = Some "8 / (3 - (8 / 3))".
Proof. vm_compute. repeat split. Qed.

(** C2 (the code departs from the claim). The search over (3, 3, 8, 8)
    returns one Solution; its formula text is ((8 / 3) - 8) / 3, whose value
    is about -1.78 and not within 1e-9 of 24. *)
Theorem uniqueSolutions_3388_formula_not_24 :
  uniqueSolutions digit digit [3; 3; 8; 8]%float =
    Some [Expression.mk "((8 / 3) - 8) / 3" 23.999999999999989%float] ∧
  let f := Bin (Bin (Bin (Lit 8) "/" (Lit 3)) "-" (Lit 8)) "/" (Lit 3) in
  render digit f = "((8 / 3) - 8) / 3" ∧
  evalFormula f = Some (-1.7777777777777779)%float ∧
  (isApproximately24 <$> evalFormula f) = Some false.
Proof. vm_compute. repeat split. Qed.

(** * Further properties of the canonical keys *)

Section KeyAlgebra.

Variable FormatFloat : float -> string.

Local Abbreviation key := (getCanonicalKey FormatFloat).
Local Abbreviation collect := (collectOperands FormatFloat).

(** [collectOperands] appends to the slice it is given. *)
Lemma collectOperands_acc (node : Node.t) :
  ∀ (op : string) (operands : list string),
    collect node op operands = (app operands) <$> collect node op [].
Proof.
  induction node as [nop value nleft nright IHl IHr] using Node_ind'.
  intros op operands. rewrite !(collectOperands_eq _ (Node.mk _ _ _ _)).
  cbn [Node.op Node.left Node.right].
  destruct (String.eqb nop op).
  - destruct nleft as [l|], nright as [r|]; simpl.
    + rewrite (IHl l eq_refl op operands).
      destruct (collect l op []) as [ll|]; [|done]. simpl.
      rewrite (IHr r eq_refl op (operands ++ ll)), (IHr r eq_refl op ll).
      destruct (collect r op []) as [lr|]; [|done]. simpl.
      by rewrite app_assoc.
    + rewrite (IHl l eq_refl op operands).
      by destruct (collect l op []).
    + rewrite (IHr r eq_refl op operands).
      by destruct (collect r op []).
    + by rewrite app_nil_r.
  - by destruct (key _).
Qed.

(** The key of a node with two children, from the keys and the collected
    operands of the children. *)
Lemma key_binary (op : string) (v : float) (x y : Node.t) :
  key (Node.mk op v (Some x) (Some y)) =
    kx ← key x;
    ky ← key y;
    if String.eqb op "*" && String.eqb kx "1" then Some ky
    else if String.eqb op "*" && String.eqb ky "1" then Some kx
    else if String.eqb op "/" && String.eqb ky "1" then Some kx
    else if String.eqb op "+" || String.eqb op "*" then
      lx ← collect x op [];
      ly ← collect y op [];
      Some ("(" +:+ Join (sortStrings (lx ++ ly)) op +:+ ")")
    else Some ("(" +:+ kx +:+ op +:+ ky +:+ ")").
Proof.
  simpl. destruct (key x) as [kx|]; [|done]. simpl.
  destruct (key y) as [ky|]; [|done]. simpl.
  repeat case_match; try done.
  fold (collect x op []).
  destruct (collect x op []) as [lx|]; [|done]. simpl.
  fold (collect y op lx). rewrite collectOperands_acc.
  by destruct (collect y op []).
Qed.

Lemma collect_binary (nop : string) (v : float) (x y : Node.t) (op : string) :
  collect (Node.mk nop v (Some x) (Some y)) op [] =
    if String.eqb nop op then
      lx ← collect x op []; ly ← collect y op []; Some (lx ++ ly)
    else
      k ← key (Node.mk nop v (Some x) (Some y)); Some [k].
Proof.
  rewrite collectOperands_eq. cbn [Node.op Node.left Node.right].
  destruct (String.eqb nop op); [|done].
  destruct (collect x op []) as [lx|]; [|done]. simpl.
  rewrite collectOperands_acc. by destruct (collect y op []).
Qed.

Lemma sameOperands_refl (r : option (list string)) : sameOperands r r.
Proof. destruct r; simpl; done. Qed.

Lemma sameOperands_app (r1 r2 s1 s2 : option (list string)) :
  sameOperands r1 r2 → sameOperands s1 s2 →
  sameOperands (l1 ← r1; l2 ← s1; Some (l1 ++ l2))
               (l1 ← r2; l2 ← s2; Some (l1 ++ l2)).
Proof.
  destruct r1, r2, s1, s2; simpl; try done.
  intros H1 H2. by rewrite H1, H2.
Qed.

Lemma sameOperands_app_swap (r1 r2 s1 s2 : option (list string)) :
  sameOperands r1 r2 → sameOperands s1 s2 →
  sameOperands (l1 ← r1; l2 ← s1; Some (l1 ++ l2))
               (l2 ← s2; l1 ← r2; Some (l2 ++ l1)).
Proof.
  destruct r1, r2, s1, s2; simpl; try done.
  intros H1 H2. rewrite H1, H2. apply Permutation_app_comm.
Qed.

Lemma sameOperands_flat (r1 r2 : option (list string)) (op : string) :
  sameOperands r1 r2 →
  (l ← r1; Some ("(" +:+ Join (sortStrings l) op +:+ ")")) =
  (l ← r2; Some ("(" +:+ Join (sortStrings l) op +:+ ")")).
Proof.
  destruct r1, r2; simpl; try done.
  intros H. by rewrite (sortStrings_unique _ _ H).
Qed.

(** The key of a node with two children, with the flattened operands
    gathered in one step. *)
Lemma key_binary_flat (op : string) (v : float) (x y : Node.t) :
  key (Node.mk op v (Some x) (Some y)) =
    kx ← key x;
    ky ← key y;
    if String.eqb op "*" && String.eqb kx "1" then Some ky
    else if String.eqb op "*" && String.eqb ky "1" then Some kx
    else if String.eqb op "/" && String.eqb ky "1" then Some kx
    else if String.eqb op "+" || String.eqb op "*" then
      l ← (lx ← collect x op []; ly ← collect y op []; Some (lx ++ ly));
      Some ("(" +:+ Join (sortStrings l) op +:+ ")")
    else Some ("(" +:+ kx +:+ op +:+ ky +:+ ")").
Proof.
  rewrite key_binary.
  destruct (key x) as [kx|]; [|done]. simpl.
  destruct (key y) as [ky|]; [|done]. simpl.
  repeat case_match; try done.
  destruct (collect x op []); [|done]. simpl.
  by destruct (collect y op []).
Qed.

Lemma commuted_key_collect (t t' : Node.t) :
  commuted t t' →
  key t = key t' ∧
  ∀ op, sameOperands (collect t op []) (collect t' op []).
Proof.
  induction 1 as [t
                 |nop v v' x y x' y' Hx [IHkx IHcx] Hy [IHky IHcy]
                 |nop v v' x y x' y' Hop Hx [IHkx IHcx] Hy [IHky IHcy]].
  - split; [done|]. intros op. apply sameOperands_refl.
  - assert (Hkey : key (Node.mk nop v (Some x) (Some y)) =
                   key (Node.mk nop v' (Some x') (Some y'))).
    { rewrite !key_binary_flat, <- IHkx, <- IHky.
      destruct (key x) as [kx|]; [|done]. simpl.
      destruct (key y) as [ky|]; [|done]. simpl.
      repeat case_match; try done.
      apply sameOperands_flat, sameOperands_app; auto. }
    split; [done|]. intros op. rewrite !collect_binary, <- Hkey.
    destruct (String.eqb nop op).
    + apply sameOperands_app; auto.
    + apply sameOperands_refl.
  - assert (Hkey : key (Node.mk nop v (Some x) (Some y)) =
                   key (Node.mk nop v' (Some y') (Some x'))).
    { rewrite !key_binary_flat, <- IHkx, <- IHky.
      destruct (key x) as [kx|], (key y) as [ky|]; simpl; try done.
      destruct Hop as [-> | ->]; simpl.
      - apply sameOperands_flat, sameOperands_app_swap; auto.
      - destruct (String.eqb_spec kx "1") as [->|Hkx],
                 (String.eqb_spec ky "1") as [->|Hky]; simpl; try done.
        apply sameOperands_flat, sameOperands_app_swap; auto. }
    split; [done|]. intros op. rewrite !collect_binary, <- Hkey.
    destruct (String.eqb nop op).
    + apply sameOperands_app_swap; auto.
    + apply sameOperands_refl.
Qed.

(** X7. The canonical key does not depend on the order of the two operands
    of any "+" or "*" node of the tree, at the root or below it: exchanging
    them leaves [getCanonicalKey] unchanged (it returns the same key, or
    panics on both trees). *)
Theorem getCanonicalKey_commuted (t t' : Node.t) :
  commuted t t' → key t = key t'.
Proof. intros H. by apply commuted_key_collect. Qed.

(** X8. Sums re-associate: whatever the subtrees [x], [y] and [z], the trees
    [(x + y) + z] and [x + (y + z)] have the same canonical key (or
    [getCanonicalKey] panics on both). *)
Theorem getCanonicalKey_sum_assoc (x y z : Node.t) (v1 v2 v3 v4 : float) :
  key (Node.mk "+" v1 (Some (Node.mk "+" v2 (Some x) (Some y))) (Some z)) =
  key (Node.mk "+" v3 (Some x) (Some (Node.mk "+" v4 (Some y) (Some z)))).
Proof.
  rewrite !key_binary_flat, !collect_binary. simpl.
  destruct (key x) as [kx|], (key y) as [ky|], (key z) as [kz|];
    simpl; try done;
    destruct (collect x "+" []) as [lx|], (collect y "+" []) as [ly|],
      (collect z "+" []) as [lz|]; simpl; try done.
  by rewrite app_assoc.
Qed.

(** X9. Products re-associate when the rule for multiplication by 1 stays
    out of the way: if neither [x] nor [z] has the key "1", the trees
    [(x * y) * z] and [x * (y * z)] have the same canonical key, whatever
    [y] is. *)
Theorem getCanonicalKey_product_assoc (x y z : Node.t) (v1 v2 v3 v4 : float) :
  key x ≠ Some "1" → key z ≠ Some "1" →
  key (Node.mk "*" v1 (Some (Node.mk "*" v2 (Some x) (Some y))) (Some z)) =
  key (Node.mk "*" v3 (Some x) (Some (Node.mk "*" v4 (Some y) (Some z)))).
Proof.
  intros Hx Hz.
  rewrite !key_binary_flat, !collect_binary. simpl.
  destruct (key x) as [kx|], (key y) as [ky|], (key z) as [kz|];
    simpl; try done;
    try (match goal with |- ?m ≫= _ = None => by destruct m end).
  destruct (String.eqb_spec kx "1") as [->|Hkx]; [done|].
  destruct (String.eqb_spec kz "1") as [->|Hkz]; [done|].
  destruct (String.eqb_spec ky "1") as [->|Hky]; simpl;
    rewrite ?(proj2 (String.eqb_neq _ _)) by done; simpl;
    destruct (collect x "*" []) as [lx|], (collect y "*" []) as [ly|],
      (collect z "*" []) as [lz|]; simpl; try done;
    by rewrite app_assoc.
Qed.

End KeyAlgebra.

(** * Further properties of the enumeration and of [findSolutions] *)

(** X10. For an input of any length [n], [generatePermutations] returns
    [n!] orderings; an ordering is returned exactly when it is a
    rearrangement of the input; distinct operands give distinct orderings;
    and an input of at most one operand (the empty slice included) comes
    back as the only ordering. *)
Theorem generatePermutations_any_length (nums : list float) :
  length (generatePermutations nums) = fact (length nums) ∧
  (∀ p, p ∈ generatePermutations nums ↔ p ≡ₚ nums) ∧
  (NoDup nums → NoDup (generatePermutations nums)) ∧
  ((length nums ≤ 1)%nat → generatePermutations nums = [nums]).
Proof.
  unfold generatePermutations. split_and!.
  - by apply generatePermutationsFuel_length.
  - intros p. split.
    + apply generatePermutationsFuel_Permutation.
    + by apply generatePermutationsFuel_complete.
  - apply generatePermutationsFuel_NoDup.
  - apply generatePermutationsFuel_short.
Qed.

Lemma marks_markedKeys (seenKeys : gmap string bool) :
  marks seenKeys (markedKeys seenKeys).
Proof.
  intros k. unfold markedKeys. rewrite elem_of_dom. split.
  - destruct (seenKeys !! k) as [[]|] eqn:Hk; simpl; try done.
    intros _. exists true. by apply map_lookup_filter_Some.
  - intros [b [Hk Hb]%map_lookup_filter_Some]. simpl in Hb. subst b.
    by rewrite Hk.
Qed.

Lemma marks_unique (seenKeys : gmap string bool) (seen : gset string) :
  marks seenKeys seen → seen = markedKeys seenKeys.
Proof.
  intros Hm. apply set_eq. intros k.
  rewrite <- (Hm k). apply (marks_markedKeys seenKeys k).
Qed.

Section SearchContracts.

Variable FormatFloat : float -> string.
Variable FormatFixed0 : float -> string.

Local Abbreviation key := (keyOf FormatFloat).
Local Abbreviation solution := (solutionOf FormatFixed0).

(** [findSolutions] on an ordering of at least four operands and at least
    three operators, for any registry. *)
Lemma findSolutions_lookup (perm : list float) (ops : list string)
    (seenKeys : gmap string bool) (seen : gset string) :
  (4 ≤ length perm)%nat → (3 ≤ length ops)%nat → marks seenKeys seen →
  ∃ seenKeys',
    findSolutions FormatFloat FormatFixed0 perm ops seenKeys =
      Some (solution <$> firstOccurrences key seen (candidatesOf perm ops),
            seenKeys') ∧
    marks seenKeys' (list_to_set (key <$> candidatesOf perm ops) ∪ seen).
Proof.
  intros Hperm Hops Hmarks.
  destruct (lookup_lt_is_Some_2 perm 0) as [p0 Hp0]; [lia|].
  destruct (lookup_lt_is_Some_2 perm 1) as [p1 Hp1]; [lia|].
  destruct (lookup_lt_is_Some_2 perm 2) as [p2 Hp2]; [lia|].
  destruct (lookup_lt_is_Some_2 perm 3) as [p3 Hp3]; [lia|].
  destruct (lookup_lt_is_Some_2 ops 0) as [o0 Ho0]; [lia|].
  destruct (lookup_lt_is_Some_2 ops 1) as [o1 Ho1]; [lia|].
  destruct (lookup_lt_is_Some_2 ops 2) as [o2 Ho2]; [lia|].
  unfold findSolutions, candidatesOf.
  rewrite Hp0, Hp1, Hp2, Hp3, Ho0, Ho1, Ho2. simpl.
  rewrite <- taggedTrees_buildTrees.
  destruct (collectLoop_firstOccurrences FormatFloat FormatFixed0
              perm ops p0 p1 p2 p3 o0 o1 o2
              Hp0 Hp1 Hp2 Hp3 Ho0 Ho1 Ho2
              (taggedTrees (leaf p0) (leaf p1) (leaf p2) (leaf p3) o0 o1 o2)
              0 seenKeys seen [])
    as (seenKeys' & Hloop & Hmarks').
  - apply taggedTrees_wellFormed.
  - pose proof (taggedTrees_length
                  (leaf p0) (leaf p1) (leaf p2) (leaf p3) o0 o1 o2). lia.
  - done.
  - exists seenKeys'. by rewrite Hloop.
Qed.

Lemma indexFrom_trees (perm : list float) (ops : list string)
    (tagged : list (nat * Node.t)) (i : nat) :
  cand_tree <$> indexFrom perm ops i tagged = snd <$> tagged.
Proof.
  revert i. induction tagged as [|[k t] tagged IH]; intros i; simpl;
    [done | by rewrite IH].
Qed.

(** On a made map the function on any map value is [findSolutions]. *)
Lemma collectLoopAnyMap_made (p0 p1 p2 p3 : float) (o0 o1 o2 : string)
    (trees : list Node.t) (i : nat) (made : gmap string bool)
    (results : list Expression.t) :
  collectLoopAnyMap FormatFloat FormatFixed0 p0 p1 p2 p3 o0 o1 o2
    i trees (Some made) results =
  prod_map id Some <$>
    collectLoop FormatFloat FormatFixed0 p0 p1 p2 p3 o0 o1 o2
      i trees made results.
Proof.
  revert i made results.
  induction trees as [|tree trees IH]; intros i made results; simpl; [done|].
  destruct (getCanonicalKey FormatFloat tree) as [k|]; simpl; [|done].
  destruct (default false (made !! k)); simpl; [apply IH|].
  destruct (Sprintf _ _ _); simpl; [apply IH|done].
Qed.

Lemma findSolutionsAnyMap_made (perm : list float) (ops : list string)
    (made : gmap string bool) :
  findSolutionsAnyMap FormatFloat FormatFixed0 perm ops (Some made) =
  prod_map id Some <$> findSolutions FormatFloat FormatFixed0 perm ops made.
Proof.
  unfold findSolutionsAnyMap, findSolutions.
  destruct (perm !! 0%nat), (perm !! 1%nat), (perm !! 2%nat),
    (perm !! 3%nat), (ops !! 0%nat), (ops !! 1%nat), (ops !! 2%nat);
    simpl; try done.
  apply collectLoopAnyMap_made.
Qed.

(** On a nil map the loop returns only when there is no tree. *)
Lemma collectLoopAnyMap_nil (p0 p1 p2 p3 : float) (o0 o1 o2 : string)
    (trees : list Node.t) (i : nat) (results : list Expression.t) :
  collectLoopAnyMap FormatFloat FormatFixed0 p0 p1 p2 p3 o0 o1 o2
    i trees None results =
  if decide (trees = []) then Some (results, None) else None.
Proof.
  destruct trees as [|tree trees]; simpl; [done|].
  by destruct (getCanonicalKey FormatFloat tree).
Qed.

Lemma candidatesOf_trees (perm : list float) (ops : list string)
    (p0 p1 p2 p3 : float) (o0 o1 o2 : string) :
  perm !! 0%nat = Some p0 → perm !! 1%nat = Some p1 →
  perm !! 2%nat = Some p2 → perm !! 3%nat = Some p3 →
  ops !! 0%nat = Some o0 → ops !! 1%nat = Some o1 → ops !! 2%nat = Some o2 →
  cand_tree <$> candidatesOf perm ops =
  buildTrees (leaf p0) (leaf p1) (leaf p2) (leaf p3) o0 o1 o2.
Proof.
  intros Hp0 Hp1 Hp2 Hp3 Ho0 Ho1 Ho2. unfold candidatesOf.
  rewrite Hp0, Hp1, Hp2, Hp3, Ho0, Ho1, Ho2. simpl.
  by rewrite indexFrom_trees, taggedTrees_buildTrees.
Qed.

(** X11. [findSolutions] panics exactly when the ordering has fewer than
    four operands, or the operator slice fewer than three operators, or
    [seenKeys] is a nil map and some pattern gives a tree that reaches 24,
    whose key the loop then tries to write.  Longer slices are accepted,
    and the contents of a made map play no part. *)
Theorem findSolutions_panics_iff (perm : list float) (ops : list string)
    (seenKeys : option (gmap string bool)) :
  findSolutionsAnyMap FormatFloat FormatFixed0 perm ops seenKeys = None ↔
  (length perm < 4)%nat ∨ (length ops < 3)%nat ∨
  (seenKeys = None ∧ candidatesOf perm ops ≠ []).
Proof.
  destruct (decide (length perm < 4)%nat) as [Hperm|Hperm].
  { split; [by left|]. intros _. unfold findSolutionsAnyMap.
    rewrite (lookup_ge_None_2 perm 3) by lia.
    by destruct (perm !! 0%nat), (perm !! 1%nat), (perm !! 2%nat). }
  destruct (decide (length ops < 3)%nat) as [Hops|Hops].
  { split; [by right; left|]. intros _. unfold findSolutionsAnyMap.
    rewrite (lookup_ge_None_2 ops 2) by lia.
    by destruct (perm !! 0%nat), (perm !! 1%nat), (perm !! 2%nat),
      (perm !! 3%nat), (ops !! 0%nat), (ops !! 1%nat). }
  destruct seenKeys as [made|].
  - rewrite findSolutionsAnyMap_made.
    destruct (findSolutions_lookup perm ops made _ ltac:(lia) ltac:(lia)
                (marks_markedKeys made)) as (? & -> & _).
    simpl. split; [done|]. intros [?|[?|[? _]]]; [lia|lia|done].
  - destruct (lookup_lt_is_Some_2 perm 0) as [p0 Hp0]; [lia|].
    destruct (lookup_lt_is_Some_2 perm 1) as [p1 Hp1]; [lia|].
    destruct (lookup_lt_is_Some_2 perm 2) as [p2 Hp2]; [lia|].
    destruct (lookup_lt_is_Some_2 perm 3) as [p3 Hp3]; [lia|].
    destruct (lookup_lt_is_Some_2 ops 0) as [o0 Ho0]; [lia|].
    destruct (lookup_lt_is_Some_2 ops 1) as [o1 Ho1]; [lia|].
    destruct (lookup_lt_is_Some_2 ops 2) as [o2 Ho2]; [lia|].
    pose proof (candidatesOf_trees perm ops p0 p1 p2 p3 o0 o1 o2
                  Hp0 Hp1 Hp2 Hp3 Ho0 Ho1 Ho2) as Htrees.
    unfold findSolutionsAnyMap.
    rewrite Hp0, Hp1, Hp2, Hp3, Ho0, Ho1, Ho2. simpl.
    rewrite collectLoopAnyMap_nil, <- Htrees.
    destruct (candidatesOf perm ops) as [|c cs]; simpl.
    + split; [done|]. intros [?|[?|[_ ?]]]; [lia|lia|done].
    + split; [|done]. intros _. by right; right.
Qed.

Lemma candidatesOf_length (perm : list float) (ops : list string) :
  (length (candidatesOf perm ops) ≤ 5)%nat.
Proof.
  unfold candidatesOf.
  destruct (perm !! 0%nat) as [p0|]; [|simpl; lia].
  destruct (perm !! 1%nat) as [p1|]; [|simpl; lia].
  destruct (perm !! 2%nat) as [p2|]; [|simpl; lia].
  destruct (perm !! 3%nat) as [p3|]; [|simpl; lia].
  destruct (ops !! 0%nat) as [o0|]; [|simpl; lia].
  destruct (ops !! 1%nat) as [o1|]; [|simpl; lia].
  destruct (ops !! 2%nat) as [o2|]; [|simpl; lia].
  simpl. rewrite <- (length_fmap cand_tree), indexFrom_trees, length_fmap.
  apply taggedTrees_length.
Qed.

(** X12. What one call of [findSolutions] does with a made map, whatever
    the map holds.  The Solutions returned are those of the candidates of
    the call whose key the map did not mark and no earlier candidate of the
    call has: at most five, in the order of the patterns, with pairwise
    distinct keys.  After the call the map marks exactly the keys it marked
    before together with the keys of all candidates of the call (so no key
    is ever unmarked). *)
Theorem findSolutions_registry (perm : list float) (ops : list string)
    (seenKeys : gmap string bool) :
  (4 ≤ length perm)%nat → (3 ≤ length ops)%nat →
  ∃ (accepted : list Candidate) (seenKeys' : gmap string bool),
    findSolutionsAnyMap FormatFloat FormatFixed0 perm ops (Some seenKeys) =
      Some (solution <$> accepted, Some seenKeys') ∧
    accepted =
      firstOccurrences key (markedKeys seenKeys) (candidatesOf perm ops) ∧
    accepted `sublist_of` candidatesOf perm ops ∧
    (length accepted ≤ 5)%nat ∧
    NoDup (key <$> accepted) ∧
    Forall (λ c, default false (seenKeys !! key c) = false) accepted ∧
    (∀ k, default false (seenKeys' !! k) = true ↔
          default false (seenKeys !! k) = true ∨
          k ∈ key <$> candidatesOf perm ops).
Proof.
  intros Hperm Hops.
  destruct (findSolutions_lookup perm ops seenKeys _ Hperm Hops
              (marks_markedKeys seenKeys)) as (seenKeys' & Hfind & Hmarks).
  exists (firstOccurrences key (markedKeys seenKeys) (candidatesOf perm ops)),
    seenKeys'.
  split_and!.
  - by rewrite findSolutionsAnyMap_made, Hfind.
  - done.
  - apply firstOccurrences_sublist.
  - etrans; [|apply (candidatesOf_length perm ops)].
    apply sublist_length, firstOccurrences_sublist.
  - apply firstOccurrences_NoDup.
  - apply Forall_forall. intros c Hc%firstOccurrences_fresh.
    destruct (default false (seenKeys !! key c)) eqn:E; [|done].
    by apply (proj1 (marks_markedKeys seenKeys (key c))) in E.
  - intros k. rewrite (Hmarks k), elem_of_union, elem_of_list_to_set.
    rewrite <- (marks_markedKeys seenKeys k). tauto.
Qed.

Lemma firstOccurrences_all_seen {A : Type} (f : A → string)
    (seen : gset string) (l : list A) :
  Forall (λ x, f x ∈ seen) l → firstOccurrences f seen l = [].
Proof.
  revert seen. induction l as [|x l IH]; intros seen Hl; simpl; [done|].
  apply Forall_cons in Hl as [Hx Hl].
  destruct (decide (f x ∈ seen)); [|done].
  apply IH. eapply Forall_impl; [exact Hl|]. simpl. set_solver.
Qed.

(** When every tree of [trees] has a key the registry marks, the loop of
    [findSolutions] records nothing and leaves the registry as it is. *)
Lemma collectLoop_all_marked (p0 p1 p2 p3 : float) (o0 o1 o2 : string)
    (trees : list Node.t) (seenKeys : gmap string bool) :
  Forall (λ t, ∃ k, getCanonicalKey FormatFloat t = Some k ∧
                    default false (seenKeys !! k) = true) trees →
  ∀ (i : nat) (results : list Expression.t),
    collectLoop FormatFloat FormatFixed0 p0 p1 p2 p3 o0 o1 o2
      i trees seenKeys results = Some (results, seenKeys).
Proof.
  induction 1 as [|t trees (k & Hk & Hseen) _ IH]; intros i results; simpl.
  - done.
  - rewrite Hk. simpl. rewrite Hseen. simpl. apply IH.
Qed.

(** X13. A call of [findSolutions] with a made map returns, and a second
    call on the same ordering and operators, with the map as the first call
    left it, finds nothing new: it returns no Solution and does not change
    the map. *)
Theorem findSolutions_twice (perm : list float) (ops : list string)
    (seenKeys : gmap string bool) :
  (4 ≤ length perm)%nat → (3 ≤ length ops)%nat →
  ∃ (solutions : list Expression.t) (seenKeys' : gmap string bool),
    findSolutionsAnyMap FormatFloat FormatFixed0 perm ops (Some seenKeys) =
      Some (solutions, Some seenKeys') ∧
    findSolutionsAnyMap FormatFloat FormatFixed0 perm ops (Some seenKeys') =
      Some ([], Some seenKeys').
Proof.
  intros Hperm Hops.
  destruct (findSolutions_lookup perm ops seenKeys _ Hperm Hops
              (marks_markedKeys seenKeys)) as (seenKeys' & Hfind & Hmarks).
  eexists _, seenKeys'. rewrite !findSolutionsAnyMap_made.
  split; [by rewrite Hfind|].
  enough (findSolutions FormatFloat FormatFixed0 perm ops seenKeys' =
            Some ([], seenKeys')) as -> by done.
  destruct (lookup_lt_is_Some_2 perm 0) as [p0 Hp0]; [lia|].
  destruct (lookup_lt_is_Some_2 perm 1) as [p1 Hp1]; [lia|].
  destruct (lookup_lt_is_Some_2 perm 2) as [p2 Hp2]; [lia|].
  destruct (lookup_lt_is_Some_2 perm 3) as [p3 Hp3]; [lia|].
  destruct (lookup_lt_is_Some_2 ops 0) as [o0 Ho0]; [lia|].
  destruct (lookup_lt_is_Some_2 ops 1) as [o1 Ho1]; [lia|].
  destruct (lookup_lt_is_Some_2 ops 2) as [o2 Ho2]; [lia|].
  unfold candidatesOf in Hmarks.
  rewrite Hp0, Hp1, Hp2, Hp3, Ho0, Ho1, Ho2 in Hmarks. simpl in Hmarks.
  unfold findSolutions.
  rewrite Hp0, Hp1, Hp2, Hp3, Ho0, Ho1, Ho2. simpl.
  apply collectLoop_all_marked.
  rewrite <- taggedTrees_buildTrees.
  rewrite <- (indexFrom_trees perm ops _ 0).
  apply Forall_fmap, Forall_forall. intros c Hc. simpl.
  assert (Hwf : wellFormed (cand_tree c)).
  { assert (Hall : Forall wellFormed
                     (cand_tree <$>
                        indexFrom perm ops 0
                          (taggedTrees (leaf p0) (leaf p1) (leaf p2) (leaf p3)
                             o0 o1 o2))).
    { rewrite indexFrom_trees. apply Forall_fmap, taggedTrees_wellFormed. }
    apply (proj1 (Forall_fmap _ _ _)) in Hall.
    by apply (proj1 (Forall_forall _ _) Hall). }
  destruct (getCanonicalKey_total FormatFloat _ Hwf) as [[k Hk] _].
  exists k. split; [done|].
  apply (Hmarks k). apply elem_of_union_l, elem_of_list_to_set.
  apply list_elem_of_fmap. exists c. split; [|done].
  unfold keyOf. by rewrite Hk.
Qed.

Lemma discovered_Permutation (nums nums' : list float) (c : Candidate) :
  nums ≡ₚ nums' → c ∈ discovered nums → c ∈ discovered nums'.
Proof.
  intros Hperm. unfold discovered.
  intros (perm & Hc & Hin)%list_elem_of_bind.
  apply list_elem_of_bind. exists perm. split; [done|].
  apply generatePermutationsFuel_complete; [done|].
  rewrite <- Hperm. by apply generatePermutationsFuel_Permutation in Hin.
Qed.

Lemma accepted_keys (nums : list float) (k : string) :
  k ∈ key <$> firstOccurrences key ∅ (discovered nums) ↔
  k ∈ key <$> discovered nums.
Proof.
  pose proof (firstOccurrences_keys key ∅ (discovered nums)) as Hkeys.
  rewrite !(right_id_L ∅ (∪)) in Hkeys.
  rewrite <- !(elem_of_list_to_set (C := gset string)). by rewrite Hkeys.
Qed.

(** X14. The order in which the four operands are entered changes neither
    the number of Solutions reported nor the canonical keys they stand for.
    For two rearrangements of the same operands, the result lists of the two
    searches are the Solutions of the first occurrences [accepted] and
    [accepted'] of the two traversals; these are equally many, their keys
    are the same up to order, and the two maps [seenKeys] mark the same
    keys when the searches end. *)
Theorem uniqueSolutions_reordered (nums nums' : list float) :
  length nums = 4%nat → nums ≡ₚ nums' →
  ∃ (accepted accepted' : list Candidate)
    (seenKeys seenKeys' : gmap string bool),
    accepted = firstOccurrences key ∅ (discovered nums) ∧
    accepted' = firstOccurrences key ∅ (discovered nums') ∧
    searchPerms FormatFloat FormatFixed0
      (generatePermutations nums) generateOperations [] ∅ =
      Some (solution <$> accepted, seenKeys) ∧
    searchPerms FormatFloat FormatFixed0
      (generatePermutations nums') generateOperations [] ∅ =
      Some (solution <$> accepted', seenKeys') ∧
    uniqueSolutions FormatFloat FormatFixed0 nums =
      Some (solution <$> accepted) ∧
    uniqueSolutions FormatFloat FormatFixed0 nums' =
      Some (solution <$> accepted') ∧
    length (solution <$> accepted) = length (solution <$> accepted') ∧
    key <$> accepted ≡ₚ key <$> accepted' ∧
    (∀ k, default false (seenKeys !! k) = true ↔
          default false (seenKeys' !! k) = true).
Proof.
  intros Hlen Hperm.
  assert (Hlen' : length nums' = 4%nat) by by rewrite <- Hperm.
  destruct (searchPerms_firstOccurrences FormatFloat FormatFixed0
              generateOperations generateOperations_length
              (generatePermutations nums) [] ∅ ∅)
    as (seenKeys & Hsearch & Hmarks).
  { rewrite <- Hlen. apply generatePermutations_length. }
  { apply marks_empty. }
  destruct (searchPerms_firstOccurrences FormatFloat FormatFixed0
              generateOperations generateOperations_length
              (generatePermutations nums') [] ∅ ∅)
    as (seenKeys' & Hsearch' & Hmarks').
  { rewrite <- Hlen'. apply generatePermutations_length. }
  { apply marks_empty. }
  fold (discovered nums) in Hsearch, Hmarks.
  fold (discovered nums') in Hsearch', Hmarks'.
  simpl in Hsearch, Hsearch'.
  assert (Hsame : ∀ k, k ∈ key <$> discovered nums ↔
                       k ∈ key <$> discovered nums').
  { intros k. rewrite !list_elem_of_fmap.
    split; intros (c & -> & Hc); exists c; (split; [done|]).
    - by apply (discovered_Permutation nums nums').
    - by apply (discovered_Permutation nums' nums). }
  assert (Hkeys : key <$> firstOccurrences key ∅ (discovered nums)
                  ≡ₚ key <$> firstOccurrences key ∅ (discovered nums')).
  { apply NoDup_Permutation; [apply firstOccurrences_NoDup..|].
    intros k. by rewrite !accepted_keys. }
  exists (firstOccurrences key ∅ (discovered nums)),
    (firstOccurrences key ∅ (discovered nums')), seenKeys, seenKeys'.
  split_and!; try done.
  - by apply uniqueSolutions_firstOccurrences.
  - by apply uniqueSolutions_firstOccurrences.
  - apply Permutation_length in Hkeys. by rewrite !length_fmap in *.
  - intros k. rewrite (Hmarks k), (Hmarks' k).
    rewrite !elem_of_union, !elem_of_list_to_set. by rewrite (Hsame k).
Qed.

End SearchContracts.

Lemma getCanonicalKey_commuted_witness :
  commuted
    (Node.mk "*" 20 (Some (Node.mk "+" 5 (Some (leaf 2)) (Some (leaf 3))))
       (Some (leaf 4)))
    (Node.mk "*" 20 (Some (leaf 4))
       (Some (Node.mk "+" 5 (Some (leaf 3)) (Some (leaf 2))))) ∧
  getCanonicalKey digit
    (Node.mk "*" 20 (Some (Node.mk "+" 5 (Some (leaf 2)) (Some (leaf 3))))
       (Some (leaf 4))) =
  getCanonicalKey digit
    (Node.mk "*" 20 (Some (leaf 4))
       (Some (Node.mk "+" 5 (Some (leaf 3)) (Some (leaf 2))))).
Proof.
  assert (H : commuted
    (Node.mk "*" 20 (Some (Node.mk "+" 5 (Some (leaf 2)) (Some (leaf 3))))
       (Some (leaf 4)))
    (Node.mk "*" 20 (Some (leaf 4))
       (Some (Node.mk "+" 5 (Some (leaf 3)) (Some (leaf 2)))))).
  { apply commuted_swap; [by right| |apply commuted_same].
    apply commuted_swap; [by left|apply commuted_same..]. }
  split; [exact H|]. exact (getCanonicalKey_commuted digit _ _ H).
Defined.

Lemma getCanonicalKey_product_assoc_witness :
  getCanonicalKey digit (leaf 2) ≠ Some "1" ∧
  getCanonicalKey digit (leaf 3) ≠ Some "1" ∧
  getCanonicalKey digit
    (Node.mk "*" 6 (Some (Node.mk "*" 2 (Some (leaf 2)) (Some (leaf 1))))
       (Some (leaf 3))) =
  getCanonicalKey digit
    (Node.mk "*" 6 (Some (leaf 2))
       (Some (Node.mk "*" 3 (Some (leaf 1)) (Some (leaf 3))))).
Proof.
  assert (H2 : getCanonicalKey digit (leaf 2) ≠ Some "1")
    by (vm_compute; discriminate).
  assert (H3 : getCanonicalKey digit (leaf 3) ≠ Some "1")
    by (vm_compute; discriminate).
  split; [exact H2|]. split; [exact H3|].
  exact (getCanonicalKey_product_assoc digit (leaf 2) (leaf 1) (leaf 3)
           6 2 6 3 H2 H3).
Defined.

Lemma findSolutions_registry_witness :
  (4 ≤ length [8; 3; 8; 3]%float)%nat ∧ (3 ≤ length ["/"; "-"; "/"])%nat ∧
  ∃ (accepted : list Candidate) (seenKeys' : gmap string bool),
    findSolutionsAnyMap digit digit [8; 3; 8; 3]%float ["/"; "-"; "/"]
      (Some ∅) = Some (solutionOf digit <$> accepted, Some seenKeys') ∧
    accepted =
      firstOccurrences (keyOf digit) (markedKeys ∅)
        (candidatesOf [8; 3; 8; 3]%float ["/"; "-"; "/"]) ∧
    accepted `sublist_of` candidatesOf [8; 3; 8; 3]%float ["/"; "-"; "/"] ∧
    (length accepted ≤ 5)%nat ∧
    NoDup (keyOf digit <$> accepted) ∧
    Forall (λ c, default false ((∅ : gmap string bool) !! keyOf digit c)
                 = false) accepted ∧
    (∀ k, default false (seenKeys' !! k) = true ↔
          default false ((∅ : gmap string bool) !! k) = true ∨
          k ∈ keyOf digit <$>
                candidatesOf [8; 3; 8; 3]%float ["/"; "-"; "/"]).
Proof.
  split; [simpl; lia|]. split; [simpl; lia|].
  apply (findSolutions_registry digit digit); simpl; lia.
Defined.

Lemma findSolutions_twice_witness :
  (4 ≤ length [8; 3; 8; 3]%float)%nat ∧ (3 ≤ length ["/"; "-"; "/"])%nat ∧
  ∃ (solutions : list Expression.t) (seenKeys' : gmap string bool),
    findSolutionsAnyMap digit digit [8; 3; 8; 3]%float ["/"; "-"; "/"]
      (Some ∅) = Some (solutions, Some seenKeys') ∧
    findSolutionsAnyMap digit digit [8; 3; 8; 3]%float ["/"; "-"; "/"]
      (Some seenKeys') = Some ([], Some seenKeys').
Proof.
  split; [simpl; lia|]. split; [simpl; lia|].
  apply (findSolutions_twice digit digit); simpl; lia.
Defined.

Lemma uniqueSolutions_reordered_witness :
  length [1; 2; 3; 4]%float = 4%nat ∧
  [1; 2; 3; 4]%float ≡ₚ [2; 1; 3; 4]%float ∧
  ∃ (accepted accepted' : list Candidate)
    (seenKeys seenKeys' : gmap string bool),
    accepted = firstOccurrences (keyOf digit) ∅
                 (discovered [1; 2; 3; 4]%float) ∧
    accepted' = firstOccurrences (keyOf digit) ∅
                  (discovered [2; 1; 3; 4]%float) ∧
    searchPerms digit digit
      (generatePermutations [1; 2; 3; 4]%float) generateOperations [] ∅ =
      Some (solutionOf digit <$> accepted, seenKeys) ∧
    searchPerms digit digit
      (generatePermutations [2; 1; 3; 4]%float) generateOperations [] ∅ =
      Some (solutionOf digit <$> accepted', seenKeys') ∧
    uniqueSolutions digit digit [1; 2; 3; 4]%float =
      Some (solutionOf digit <$> accepted) ∧
    uniqueSolutions digit digit [2; 1; 3; 4]%float =
      Some (solutionOf digit <$> accepted') ∧
    length (solutionOf digit <$> accepted) =
      length (solutionOf digit <$> accepted') ∧
    keyOf digit <$> accepted ≡ₚ keyOf digit <$> accepted' ∧
    (∀ k, default false (seenKeys !! k) = true ↔
          default false (seenKeys' !! k) = true).
Proof.
  split; [reflexivity|]. split; [apply perm_swap|].
  apply (uniqueSolutions_reordered digit digit); [reflexivity|apply perm_swap].
Defined.

(** * Properties of [parseInput] *)

Lemma SFcompare_antisym (x y : spec_float) :
  SFcompare y x = CompOpp <$> SFcompare x y.
Proof.
  destruct x as [[]|[]| |[] mx ex], y as [[]|[]| |[] my ey]; simpl; try done;
    f_equal; rewrite (Z.compare_antisym ex ey);
    destruct (ex ?= ey)%Z; simpl; try done;
    change (Pos.compare_cont Eq my mx) with (my ?= mx)%positive;
    change (Pos.compare_cont Eq mx my) with (mx ?= my)%positive;
    rewrite (Pos.compare_antisym mx my); by destruct (mx ?= my)%positive.
Qed.

(** A float that equals some float is no NaN: it equals itself, and
    [x < y] false means [y <= x] for it. *)
Lemma eqb_self (x z : float) :
  PrimFloat.eqb x z = true → PrimFloat.eqb x x = true.
Proof.
  rewrite !FloatAxioms.eqb_spec. unfold SFeqb.
  destruct (Prim2SF x) as [[]|[]| |[] mx ex]; simpl; try done;
    rewrite Z.compare_refl, ?Pos.compare_cont_refl; done.
Qed.

Lemma leb_of_not_ltb (x y : float) :
  PrimFloat.eqb x x = true → PrimFloat.eqb y y = true →
  PrimFloat.ltb x y = false → PrimFloat.leb y x = true.
Proof.
  rewrite !FloatAxioms.eqb_spec, FloatAxioms.ltb_spec, FloatAxioms.leb_spec.
  unfold SFeqb, SFltb, SFleb.
  pose proof (SFcompare_antisym (Prim2SF x) (Prim2SF y)) as Hanti.
  intros Hx Hy.
  assert (Hsome : is_Some (SFcompare (Prim2SF x) (Prim2SF y))).
  { destruct (Prim2SF x) as [[]|[]| |[] mx ex],
      (Prim2SF y) as [[]|[]| |[] my ey]; simpl in *; done. }
  destruct Hsome as [c Hc]. rewrite Hc in Hanti |- *. rewrite Hanti.
  by destruct c.
Qed.

Section InputProperties.

Variable TrimSpace : string -> string.
Variable Fields : string -> list string.
Variable ParseFloat : string -> option float.
Variable Floor : float -> float.
Variable FormatFloat : float -> string.

Local Abbreviation parse :=
  (parseInput TrimSpace Fields ParseFloat Floor FormatFloat).
Local Abbreviation check :=
  (checkParts TrimSpace ParseFloat Floor FormatFloat).
Local Abbreviation loop :=
  (parseParts TrimSpace ParseFloat Floor FormatFloat).

Lemma parseParts_Parsed (parts : list string) (acc nums : list float) :
  loop parts acc = Parsed nums →
  ∃ new, nums = acc ++ new ∧
    Forall2 (λ part n,
      ParseFloat (TrimSpace part) = Some n ∧
      PrimFloat.ltb n 1 = false ∧ PrimFloat.ltb 9 n = false ∧
      PrimFloat.eqb n (Floor n) = true) parts new.
Proof.
  revert acc. induction parts as [|part parts IH]; intros acc; simpl.
  - intros [= <-]. exists []. by rewrite app_nil_r.
  - destruct (ParseFloat (TrimSpace part)) as [num|] eqn:Hnum; [|done].
    destruct (PrimFloat.ltb num 1) eqn:H1; [done|].
    destruct (PrimFloat.ltb 9 num) eqn:H9; [done|].
    destruct (PrimFloat.eqb num (Floor num)) eqn:Hfloor; [|done]. simpl.
    intros (new & -> & Hnew)%IH. exists (num :: new).
    split; [by rewrite <- app_assoc|]. by constructor.
Qed.

Lemma checkParts_Parsed (parts : list string) (nums : list float) :
  check parts = Parsed nums →
  length parts = 4%nat ∧ loop parts [] = Parsed nums.
Proof.
  unfold checkParts. destruct (Nat.eqb_spec (length parts) 4); simpl; done.
Qed.

Lemma parseInput_Parsed (input : string) (nums : list float) :
  parse input = Parsed nums →
  ∃ parts, length parts = 4%nat ∧ loop parts [] = Parsed nums.
Proof.
  unfold parseInput. repeat case_match; try done;
    intros Hparts%checkParts_Parsed; eauto.
Qed.

(** X15. Whatever the library routines return, the operands [parseInput]
    lets through are exactly four; each is at least 1 and at most 9 in
    float64 comparison, so none is a NaN, although the code tests only
    [num < 1] and [num > 9]; each equals its [math.Floor]; and each is a
    value [strconv.ParseFloat] returned. *)
Theorem parseInput_operands (input : string) (nums : list float) :
  parseInput TrimSpace Fields ParseFloat Floor FormatFloat input = Parsed nums →
  length nums = 4%nat ∧
  Forall (λ n,
    PrimFloat.leb 1 n = true ∧ PrimFloat.leb n 9 = true ∧
    PrimFloat.eqb n (Floor n) = true ∧
    ∃ part, ParseFloat part = Some n) nums.
Proof.
  intros (parts & Hlen & (new & -> & Hnew)%parseParts_Parsed)%parseInput_Parsed.
  simpl. split.
  - by rewrite <- (Forall2_length _ _ _ Hnew).
  - clear Hlen. induction Hnew as [|part n parts new (Hn & H1 & H9 & Hf) _ IH];
      constructor; [|done].
    split_and!; [| |done|by eexists].
    + apply (leb_of_not_ltb n 1); [by apply (eqb_self n (Floor n))|done..].
    + apply (leb_of_not_ltb 9 n); [done|by apply (eqb_self n (Floor n))|done].
Qed.

Lemma parseParts_message (parts : list string) (acc : list float)
    (err : string) :
  loop parts acc = Rejected err →
  (∃ part, err = String "'" (part +:+ "' is not a valid number")) ∨
  (∃ num, err = String "n" ("umbers must be digits 1-9, found: "
                             +:+ FormatFloat num)).
Proof.
  revert acc. induction parts as [|part parts IH]; intros acc; simpl; [done|].
  destruct (ParseFloat (TrimSpace part)) as [num|].
  - destruct (_ || _ || _).
    + intros [= <-]. right. by exists num.
    + apply IH.
  - intros [= <-]. left. by exists (TrimSpace part).
Qed.

Lemma checkParts_message (parts : list string) (err : string) :
  check parts = Rejected err →
  (err = "you must enter exactly 4 numbers" ∧ length parts ≠ 4%nat) ∨
  (length parts = 4%nat ∧ loop parts [] = Rejected err).
Proof.
  unfold checkParts. destruct (Nat.eqb_spec (length parts) 4); simpl.
  - by right.
  - intros [= <-]. by left.
Qed.

Lemma checkParts_not_numeric (parts : list string) :
  check parts ≠ Rejected "input must be numeric if no spaces/commas are used".
Proof.
  intros [[H _]|[_ [[part H]|[num H]]%parseParts_message]]%checkParts_message;
    discriminate H.
Qed.

Lemma digitParts_None (s : string) :
  digitParts s = None ↔
  ∃ c, c ∈ list_ascii_of_string s ∧ notDigit c = true.
Proof.
  induction s as [|c s IH]; simpl.
  - split; [done|]. by intros (c & ?%elem_of_nil & _).
  - destruct (notDigit c) eqn:Hc.
    + split; [|done]. intros _. exists c. split; [left|done].
    + destruct (digitParts s) as [parts|]; simpl.
      * split; [done|]. intros (c' & [->|Hin]%elem_of_cons & Hc').
        -- congruence.
        -- by assert (Some parts = None) by (apply (proj2 IH); by exists c').
      * split; [|done]. intros _.
        destruct (proj1 IH eq_refl) as (c' & Hin & Hc').
        exists c'. split; [by right|done].
Qed.

(** X16. The error "input must be numeric if no spaces/commas are used" is
    reported exactly when the trimmed text has four bytes, holds neither a
    comma nor a space, and some byte of it is not a decimal digit; such a
    text is never handed to [strconv.ParseFloat]. *)
Theorem parseInput_numeric_error (input : string) :
  parseInput TrimSpace Fields ParseFloat Floor FormatFloat input =
    Rejected "input must be numeric if no spaces/commas are used" ↔
  String.length (TrimSpace input) = 4%nat ∧
  Contains (TrimSpace input) ","%char = false ∧
  Contains (TrimSpace input) " "%char = false ∧
  ∃ c, c ∈ list_ascii_of_string (TrimSpace input) ∧ notDigit c = true.
Proof.
  unfold parseInput. rewrite <- digitParts_None.
  destruct (Contains (TrimSpace input) ",").
  { split; [by intros ?%checkParts_not_numeric|naive_solver]. }
  destruct (Contains (TrimSpace input) " ").
  { split; [by intros ?%checkParts_not_numeric|naive_solver]. }
  destruct (Nat.eqb_spec (String.length (TrimSpace input)) 4).
  - destruct (digitParts (TrimSpace input)).
    + split; [by intros ?%checkParts_not_numeric|naive_solver].
    + done.
  - split; [by intros ?%checkParts_not_numeric|naive_solver].
Qed.

Lemma Split_length (s : string) (sep : ascii) :
  length (Split s sep) = S (Count s sep).
Proof.
  induction s as [|c s IH]; simpl; [done|].
  destruct (Ascii.eqb c sep); simpl; [by rewrite IH|].
  destruct (Split s sep); simpl in *; [done|lia].
Qed.

(** X17. When the trimmed text holds a comma it is cut at the commas only,
    and the error "you must enter exactly 4 numbers" is reported exactly
    when the number of commas is not three (so a text with a trailing comma
    is refused for its count). *)
Theorem parseInput_comma_count (input : string) :
  Contains (TrimSpace input) ","%char = true →
  (parseInput TrimSpace Fields ParseFloat Floor FormatFloat input =
     Rejected "you must enter exactly 4 numbers" ↔
   Count (TrimSpace input) ","%char ≠ 3%nat).
Proof.
  intros Hcomma. unfold parseInput. rewrite Hcomma.
  pose proof (Split_length (TrimSpace input) ",") as Hlen.
  split.
  - intros [[_ H]|[_ [[part H]|[num H]]%parseParts_message]]%checkParts_message;
      [lia|discriminate H..].
  - intros Hcount. unfold checkParts.
    destruct (Nat.eqb_spec (length (Split (TrimSpace input) ",")) 4);
      [lia|done].
Qed.

Lemma digitValue_valid (d : ascii) :
  digit19 d →
  PrimFloat.ltb (digitValue d) 1 = false ∧
  PrimFloat.ltb 9 (digitValue d) = false ∧
  PrimFloat.eqb (digitValue d) (digitValue d) = true.
Proof.
  unfold digit19.
  destruct d as [[] [] [] [] [] [] [] []]; intros H;
    first [ by vm_compute; repeat split | exfalso; vm_compute in H; lia ].
Qed.

Lemma digit19_bytes (d : ascii) :
  digit19 d →
  Ascii.eqb d ","%char = false ∧ Ascii.eqb d " "%char = false ∧
  notDigit d = false.
Proof.
  unfold digit19.
  destruct d as [[] [] [] [] [] [] [] []]; intros H;
    first [ by vm_compute; repeat split | exfalso; vm_compute in H; lia ].
Qed.

(** X18. Given that, on the text of one digit 1 to 9, [strings.TrimSpace]
    returns the text, [strconv.ParseFloat] returns the value of the digit
    and [math.Floor] leaves that value as it is: a line whose trimmed text
    is four digits 1 to 9 with nothing between them is accepted, and its
    operands are the four digits in the order typed. *)
Theorem parseInput_four_digits (input : string) (d0 d1 d2 d3 : ascii) :
  (∀ d, digit19 d → TrimSpace (String d "") = String d "") →
  (∀ d, digit19 d → ParseFloat (String d "") = Some (digitValue d)) →
  (∀ d, digit19 d → Floor (digitValue d) = digitValue d) →
  TrimSpace input = String d0 (String d1 (String d2 (String d3 ""))) →
  digit19 d0 → digit19 d1 → digit19 d2 → digit19 d3 →
  parseInput TrimSpace Fields ParseFloat Floor FormatFloat input =
    Parsed [digitValue d0; digitValue d1; digitValue d2; digitValue d3].
Proof.
  intros Htrim Hparse Hfloor Hinput H0 H1 H2 H3.
  unfold parseInput. rewrite Hinput. simpl.
  destruct (digit19_bytes d0 H0) as (-> & -> & ->).
  destruct (digit19_bytes d1 H1) as (-> & -> & ->).
  destruct (digit19_bytes d2 H2) as (-> & -> & ->).
  destruct (digit19_bytes d3 H3) as (-> & -> & ->).
  simpl. unfold checkParts. simpl.
  rewrite !Htrim, !Hparse, !Hfloor by done.
  destruct (digitValue_valid d0 H0) as (-> & -> & ->).
  destruct (digitValue_valid d1 H1) as (-> & -> & ->).
  destruct (digitValue_valid d2 H2) as (-> & -> & ->).
  destruct (digitValue_valid d3 H3) as (-> & -> & ->).
  done.
Qed.

End InputProperties.

(** * Properties of the session of [main] *)

Section SessionProperties.

Variable TrimSpace : string -> string.
Variable Fields : string -> list string.
Variable ParseFloat : string -> option float.
Variable Floor : float -> float.
Variable FormatFloat : float -> string.
Variable FormatFixed0 : float -> string.
Variable ToLower : string -> string.

Local Abbreviation parse :=
  (parseInput TrimSpace Fields ParseFloat Floor FormatFloat).
Local Abbreviation run :=
  (session TrimSpace Fields ParseFloat Floor FormatFloat FormatFixed0 ToLower).
Local Abbreviation quits :=
  (λ line : string, String.eqb (ToLower (TrimSpace line)) "quit").

(** The round of a line that [parseInput] accepted returns: the four
    operands the header prints are there and the search does not panic. *)
Lemma searchRound_returns (input : string) (nums : list float) :
  parse input = Parsed nums →
  is_Some (searchRound FormatFloat FormatFixed0 nums).
Proof.
  intros [Hlen _]%parseInput_operands. unfold searchRound.
  destruct nums as [|n0 [|n1 [|n2 [|n3 [|]]]]]; try done. simpl.
  by rewrite (uniqueSolutions_firstOccurrences FormatFloat FormatFixed0).
Qed.

Lemma session_ending (lines : list string) :
  ∃ out, run lines =
    Some (out ++ [if existsb quits lines then farewell else prompt]).
Proof.
  induction lines as [|input rest (out & IH)]; simpl.
  - by exists [].
  - destruct (String.eqb (ToLower (TrimSpace input)) "quit"); simpl.
    { by exists [prompt]. }
    destruct (parse input) as [nums|err] eqn:Hparse.
    + destruct (searchRound_returns input nums Hparse) as [round ->].
      rewrite IH. simpl. exists (prompt :: round ++ out).
      simpl. by rewrite app_assoc.
    + rewrite IH. simpl. by eexists (prompt :: _ :: out).
Qed.

Lemma session_quit (before after : list string) (line : string) :
  quits line = true →
  run (before ++ line :: after) = run (before ++ [line]).
Proof.
  intros Hquit. induction before as [|input before IH]; simpl.
  - by rewrite Hquit.
  - by rewrite IH.
Qed.

(** X19. The session does not panic: for every sequence of input lines,
    and whatever the library routines return, [main] returns.  What it
    writes begins with the banner and ends with the farewell when some line
    is a quit command, and with the prompt (the input ended) otherwise.  In
    particular the four operands the header of a round prints, and the
    search needs, are there whenever [parseInput] accepted the line. *)
Theorem main_returns (lines : list string) :
  ∃ out,
    main TrimSpace Fields ParseFloat Floor FormatFloat FormatFixed0 ToLower
      lines =
    Some (banner ++ out
            ++ [if existsb quits lines then farewell else prompt]).
Proof.
  destruct (session_ending lines) as [out Hout]. exists out.
  unfold main. by rewrite Hout.
Qed.

(** X20. Lines after a quit command are not read: the session writes the
    same with and without them. *)
Theorem main_stops_at_quit (before after : list string) (line : string) :
  ToLower (TrimSpace line) = "quit" →
  main TrimSpace Fields ParseFloat Floor FormatFloat FormatFixed0 ToLower
    (before ++ line :: after) =
  main TrimSpace Fields ParseFloat Floor FormatFloat FormatFixed0 ToLower
    (before ++ [line]).
Proof.
  intros Hquit. unfold main. rewrite session_quit; [done|].
  by rewrite Hquit.
Qed.

End SessionProperties.

Lemma parseInput_operands_witness :
  parseInput asciiTrimSpace asciiFields parseDigit floorSmall digit
    " 1, 2,3 ,4 " = Parsed [1; 2; 3; 4]%float ∧
  length [1; 2; 3; 4]%float = 4%nat ∧
  Forall (λ n,
    PrimFloat.leb 1 n = true ∧ PrimFloat.leb n 9 = true ∧
    PrimFloat.eqb n (floorSmall n) = true ∧
    ∃ part, parseDigit part = Some n) [1; 2; 3; 4]%float.
Proof.
  assert (H : parseInput asciiTrimSpace asciiFields parseDigit floorSmall
                digit " 1, 2,3 ,4 " = Parsed [1; 2; 3; 4]%float)
    by (vm_compute; reflexivity).
  split; [exact H|].
  exact (parseInput_operands asciiTrimSpace asciiFields parseDigit floorSmall
           digit " 1, 2,3 ,4 " [1; 2; 3; 4]%float H).
Defined.

Lemma parseInput_comma_count_witness :
  Contains (asciiTrimSpace "1,2,3,4,") ","%char = true ∧
  (parseInput asciiTrimSpace asciiFields parseDigit floorSmall digit
     "1,2,3,4," = Rejected "you must enter exactly 4 numbers" ↔
   Count (asciiTrimSpace "1,2,3,4,") ","%char ≠ 3%nat).
Proof.
  assert (H : Contains (asciiTrimSpace "1,2,3,4,") ","%char = true)
    by (vm_compute; reflexivity).
  split; [exact H|].
  exact (parseInput_comma_count asciiTrimSpace asciiFields parseDigit
           floorSmall digit "1,2,3,4," H).
Defined.

Lemma parseInput_four_digits_witness :
  (∀ d, digit19 d → asciiTrimSpace (String d "") = String d "") ∧
  (∀ d, digit19 d → parseDigit (String d "") = Some (digitValue d)) ∧
  (∀ d, digit19 d → floorSmall (digitValue d) = digitValue d) ∧
  asciiTrimSpace " 3388" = "3388" ∧
  digit19 "3" ∧ digit19 "8" ∧
  parseInput asciiTrimSpace asciiFields parseDigit floorSmall digit " 3388" =
    Parsed [digitValue "3"; digitValue "3"; digitValue "8"; digitValue "8"].
Proof.
  assert (Htrim : ∀ d, digit19 d → asciiTrimSpace (String d "") = String d "").
  { unfold digit19. intros [[] [] [] [] [] [] [] []] H;
      first [ vm_compute; reflexivity | exfalso; vm_compute in H; lia ]. }
  assert (Hparse : ∀ d, digit19 d →
                        parseDigit (String d "") = Some (digitValue d)).
  { unfold digit19. intros [[] [] [] [] [] [] [] []] H;
      first [ vm_compute; reflexivity | exfalso; vm_compute in H; lia ]. }
  assert (Hfloor : ∀ d, digit19 d → floorSmall (digitValue d) = digitValue d).
  { unfold digit19. intros [[] [] [] [] [] [] [] []] H;
      first [ vm_compute; reflexivity | exfalso; vm_compute in H; lia ]. }
  assert (Hinput : asciiTrimSpace " 3388" = "3388") by (vm_compute; reflexivity).
  assert (H3 : digit19 "3") by (vm_compute; lia).
  assert (H8 : digit19 "8") by (vm_compute; lia).
  split_and!; try assumption.
  exact (parseInput_four_digits asciiTrimSpace asciiFields parseDigit
           floorSmall digit " 3388" "3" "3" "8" "8"
           Htrim Hparse Hfloor Hinput H3 H3 H8 H8).
Defined.

Lemma main_stops_at_quit_witness :
  asciiToLower (asciiTrimSpace " QUIT ") = "quit" ∧
  main asciiTrimSpace asciiFields parseDigit floorSmall digit digit
    asciiToLower (["3388"] ++ " QUIT " :: ["1234"]) =
  main asciiTrimSpace asciiFields parseDigit floorSmall digit digit
    asciiToLower (["3388"] ++ [" QUIT "]).
Proof.
  assert (H : asciiToLower (asciiTrimSpace " QUIT ") = "quit")
    by (vm_compute; reflexivity).
  split; [exact H|].
  exact (main_stops_at_quit asciiTrimSpace asciiFields parseDigit floorSmall
           digit digit asciiToLower ["3388"] ["1234"] " QUIT " H).
Defined.

(** * The values of commuted trees *)

Lemma SFadd_comm (prec emax : Z) (x y : spec_float) :
  SFadd prec emax x y = SFadd prec emax y x.
Proof.
  destruct x as [[]|[]| |sx mx ex], y as [[]|[]| |sy my ey];
    try reflexivity.
  unfold SFadd. cbv zeta. by rewrite (Z.min_comm ex ey), Z.add_comm.
Qed.

Lemma SFmul_comm (prec emax : Z) (x y : spec_float) :
  SFmul prec emax x y = SFmul prec emax y x.
Proof.
  destruct x as [sx|sx| |sx mx ex], y as [sy|sy| |sy my ey];
    unfold SFmul; rewrite ?(xorb_comm sx sy); try reflexivity.
  by rewrite (Pos.mul_comm mx my), (Z.add_comm ex ey).
Qed.

Lemma float_add_comm (x y : float) : (x + y = y + x)%float.
Proof. apply Prim2SF_inj. rewrite !add_spec. apply SFadd_comm. Qed.

Lemma float_mul_comm (x y : float) : (x * y = y * x)%float.
Proof. apply Prim2SF_inj. rewrite !mul_spec. apply SFmul_comm. Qed.

Lemma calculate_comm (a b : float) (op : string) :
  op = "+" ∨ op = "*" → calculate a b op = calculate b a op.
Proof.
  intros [->| ->]; unfold calculate; simpl.
  - by rewrite float_add_comm.
  - by rewrite float_mul_comm.
Qed.

(** X21. For operands that are not NaN ([a == a] and [b == b] hold),
    [calculate] does not depend on the order of [a] and [b] when the
    operator is "+" or "*": it returns the same float64 and the same [ok].
    (A NaN among the operands is left out: the floats of this development
    have one NaN, so that they cannot tell which payload a sum or product
    of NaNs carries.) *)
Theorem calculate_commutative (a b : float) (op : string) :
  PrimFloat.eqb a a = true → PrimFloat.eqb b b = true →
  op = "+" ∨ op = "*" → calculate a b op = calculate b a op.
Proof. intros _ _. apply calculate_comm. Qed.

Lemma commuted_value (t t' : Node.t) :
  commuted t t' → evaluated t → evaluated t' → Node.value t = Node.value t'.
Proof.
  induction 1 as [t
                 |op v v' x y x' y' Hx IHx Hy IHy
                 |op v v' x y x' y' Hop Hx IHx Hy IHy]; [done|..];
    inversion 1 as [|? ? ? ? Hex Hey Hv]; subst;
    inversion 1 as [|? ? ? ? Hex' Hey' Hv']; subst; simpl.
  - rewrite (IHx Hex Hex'), (IHy Hey Hey') in Hv. congruence.
  - rewrite (IHx Hex Hey'), (IHy Hey Hex'), (calculate_comm _ _ _ Hop) in Hv.
    congruence.
Qed.

Lemma taggedTrees_evaluated (p0 p1 p2 p3 : float) (op0 op1 op2 : string) :
  Forall (λ kt, evaluated kt.2)
    (taggedTrees (leaf p0) (leaf p1) (leaf p2) (leaf p3) op0 op1 op2).
Proof.
  unfold taggedTrees. rewrite !Forall_app, !Forall_fmap.
  unfold pattern1, pattern2, pattern3, pattern4, pattern5.
  repeat split; repeat case_match; subst; repeat constructor; simpl;
    repeat match goal with
           | H : _ && _ = true |- _ => apply andb_prop in H as [-> _]
           end; done.
Qed.

Lemma candidates_evaluated (nums : list float) (c : Candidate) :
  c ∈ discovered nums → evaluated (cand_tree c).
Proof.
  unfold discovered.
  intros (perm & (ops & Hc & _)%list_elem_of_bind & _)%list_elem_of_bind.
  unfold candidatesOf in Hc.
  destruct (perm !! 0%nat) as [p0|]; [|by apply elem_of_nil in Hc].
  destruct (perm !! 1%nat) as [p1|]; [|by apply elem_of_nil in Hc].
  destruct (perm !! 2%nat) as [p2|]; [|by apply elem_of_nil in Hc].
  destruct (perm !! 3%nat) as [p3|]; [|by apply elem_of_nil in Hc].
  destruct (ops !! 0%nat) as [o0|]; [|by apply elem_of_nil in Hc].
  destruct (ops !! 1%nat) as [o1|]; [|by apply elem_of_nil in Hc].
  destruct (ops !! 2%nat) as [o2|]; [|by apply elem_of_nil in Hc].
  simpl in Hc.
  apply indexFrom_elem in Hc as (j & k & t & Hj & ->). simpl.
  pose proof (taggedTrees_evaluated p0 p1 p2 p3 o0 o1 o2) as Hall.
  by apply (proj1 (Forall_lookup _ _) Hall j (k, t)).
Qed.

(** X22. Two candidates of one search whose trees differ only in the order
    of the operands of "+" and "*" nodes have the same canonical key, so
    that at most one of them is reported, and the same value, bit for bit:
    the one left out would have been reported with the same value. *)
Theorem commuted_candidates_agree (FormatFloat : float -> string)
    (nums : list float) (c c' : Candidate) :
  c ∈ discovered nums → c' ∈ discovered nums →
  commuted (cand_tree c) (cand_tree c') →
  keyOf FormatFloat c = keyOf FormatFloat c' ∧
  Node.value (cand_tree c) = Node.value (cand_tree c').
Proof.
  intros Hc Hc' Hcomm. split.
  - unfold keyOf.
    by rewrite (proj1 (commuted_key_collect FormatFloat _ _ Hcomm)).
  - apply commuted_value; [done|by eapply candidates_evaluated..].
Qed.

Lemma calculate_commutative_witness :
  PrimFloat.eqb 0.1 0.1 = true ∧ PrimFloat.eqb 0.2 0.2 = true ∧
  ("+" = "+" ∨ "+" = "*") ∧
  calculate 0.1 0.2 "+" = calculate 0.2 0.1 "+".
Proof.
  split; [reflexivity|]. split; [reflexivity|]. split; [by left|].
  exact (calculate_commutative 0.1 0.2 "+" eq_refl eq_refl
           (or_introl eq_refl)).
Defined.

Lemma commuted_candidates_agree_witness :
  (mkCandidate [1; 2; 3; 4]%float ["+"; "+"; "*"] 1 0
       (Node.mk "*" 24
          (Some (Node.mk "+" 6
                   (Some (Node.mk "+" 3 (Some (leaf 1)) (Some (leaf 2))))
                   (Some (leaf 3))))
          (Some (leaf 4)))) ∈ discovered [1; 2; 3; 4]%float ∧
  (mkCandidate [2; 1; 3; 4]%float ["+"; "+"; "*"] 1 0
       (Node.mk "*" 24
          (Some (Node.mk "+" 6
                   (Some (Node.mk "+" 3 (Some (leaf 2)) (Some (leaf 1))))
                   (Some (leaf 3))))
          (Some (leaf 4)))) ∈ discovered [1; 2; 3; 4]%float ∧
  commuted
    (cand_tree (mkCandidate [1; 2; 3; 4]%float ["+"; "+"; "*"] 1 0
       (Node.mk "*" 24
          (Some (Node.mk "+" 6
                   (Some (Node.mk "+" 3 (Some (leaf 1)) (Some (leaf 2))))
                   (Some (leaf 3))))
          (Some (leaf 4)))))
    (cand_tree (mkCandidate [2; 1; 3; 4]%float ["+"; "+"; "*"] 1 0
       (Node.mk "*" 24
          (Some (Node.mk "+" 6
                   (Some (Node.mk "+" 3 (Some (leaf 2)) (Some (leaf 1))))
                   (Some (leaf 3))))
          (Some (leaf 4))))) ∧
  keyOf digit (mkCandidate [1; 2; 3; 4]%float ["+"; "+"; "*"] 1 0
       (Node.mk "*" 24
          (Some (Node.mk "+" 6
                   (Some (Node.mk "+" 3 (Some (leaf 1)) (Some (leaf 2))))
                   (Some (leaf 3))))
          (Some (leaf 4)))) =
  keyOf digit (mkCandidate [2; 1; 3; 4]%float ["+"; "+"; "*"] 1 0
       (Node.mk "*" 24
          (Some (Node.mk "+" 6
                   (Some (Node.mk "+" 3 (Some (leaf 2)) (Some (leaf 1))))
                   (Some (leaf 3))))
          (Some (leaf 4)))) ∧
  Node.value (cand_tree (mkCandidate [1; 2; 3; 4]%float ["+"; "+"; "*"] 1 0
       (Node.mk "*" 24
          (Some (Node.mk "+" 6
                   (Some (Node.mk "+" 3 (Some (leaf 1)) (Some (leaf 2))))
                   (Some (leaf 3))))
          (Some (leaf 4))))) =
  Node.value (cand_tree (mkCandidate [2; 1; 3; 4]%float ["+"; "+"; "*"] 1 0
       (Node.mk "*" 24
          (Some (Node.mk "+" 6
                   (Some (Node.mk "+" 3 (Some (leaf 2)) (Some (leaf 1))))
                   (Some (leaf 3))))
          (Some (leaf 4))))).
Proof.
  assert (H1 : (mkCandidate [1; 2; 3; 4]%float ["+"; "+"; "*"] 1 0
       (Node.mk "*" 24
          (Some (Node.mk "+" 6
                   (Some (Node.mk "+" 3 (Some (leaf 1)) (Some (leaf 2))))
                   (Some (leaf 3))))
          (Some (leaf 4)))) ∈ discovered [1; 2; 3; 4]%float).
  { apply (list_elem_of_lookup_2 _ 0). vm_compute. reflexivity. }
  assert (H2 : (mkCandidate [2; 1; 3; 4]%float ["+"; "+"; "*"] 1 0
       (Node.mk "*" 24
          (Some (Node.mk "+" 6
                   (Some (Node.mk "+" 3 (Some (leaf 2)) (Some (leaf 1))))
                   (Some (leaf 3))))
          (Some (leaf 4)))) ∈ discovered [1; 2; 3; 4]%float).
  { apply (list_elem_of_lookup_2 _ 36). vm_compute. reflexivity. }
  assert (H : commuted
    (cand_tree (mkCandidate [1; 2; 3; 4]%float ["+"; "+"; "*"] 1 0
       (Node.mk "*" 24
          (Some (Node.mk "+" 6
                   (Some (Node.mk "+" 3 (Some (leaf 1)) (Some (leaf 2))))
                   (Some (leaf 3))))
          (Some (leaf 4)))))
    (cand_tree (mkCandidate [2; 1; 3; 4]%float ["+"; "+"; "*"] 1 0
       (Node.mk "*" 24
          (Some (Node.mk "+" 6
                   (Some (Node.mk "+" 3 (Some (leaf 2)) (Some (leaf 1))))
                   (Some (leaf 3))))
          (Some (leaf 4)))))).
  { simpl. apply commuted_keep; [|apply commuted_same].
    apply commuted_keep; [|apply commuted_same].
    apply commuted_swap; [by left|apply commuted_same..]. }
  split; [exact H1|]. split; [exact H2|]. split; [exact H|].
  exact (commuted_candidates_agree digit [1; 2; 3; 4]%float _ _ H1 H2 H).
Defined.
